(** * Mind-map layout (src/components/MindMap.tsx)

    A shallow embedding of the layout effect of [MindMapComponent]: the two
    recursive passes [calculateInitialY] and [calculateFinalLayout], the
    construction of the links and the computation of the SVG dimensions.

    Modelling choices.
    - A [MindMapNode] is a JavaScript object.  The code keys a [Map] by node
      and compares nodes with [===], so every node carries its object
      identity [ref]; a tree without shared nodes is one whose identities are
      pairwise distinct ([is_tree]).
    - JavaScript numbers are modelled by exact rationals.  Every constant of
      the layout is an integer and the only division is by two, so every
      value is a dyadic rational, which IEEE doubles add and halve exactly as
      long as it fits in 53 bits.
    - [nodes] and [nodeMap] are shared mutable objects captured by both
      closures; they form the state of a small state-and-failure monad. *)

From Stdlib Require Import QArith Qminmax Lqa.
From stdpp Require Import gmap list strings.

Local Open Scope Q_scope.

(** ** Data model *)

(** [children?: MindMapNode[]]: the field may be absent. *)
#[warnings="-register-all"]
Inductive MindMapNode : Type :=
  mkNode { ref : positive; title : string; children : option (list MindMapNode) }.

Definition NODE_WIDTH : Q := 180.
Definition NODE_HEIGHT : Q := 80.
Definition HORIZONTAL_SEPARATION : Q := 220.
Definition VERTICAL_SEPARATION : Q := 20.

Record LayoutNode : Type :=
  mkLayoutNode { node : MindMapNode; x : Q; y : Q; level : nat }.

Record Point : Type := mkPoint { px : Q; py : Q }.

Record LayoutLink : Type := mkLink { source : Point; target : Point }.

(** The values of [nodeMap]: [{ y: number; subtreeHeight: number }]. *)
Record NodeInfo : Type := mkInfo { info_y : Q; subtreeHeight : Q }.

(** One activation of [calculateFinalLayout]: its three arguments. *)
Record Call : Type := mkCall { arg_node : MindMapNode; arg_level : nat; arg_yOffset : Q }.

(** The variables shared by the closures of the effect.  [calls] is a ghost
    field: it records the activations of [calculateFinalLayout] on entry, the
    source has no such variable and nothing reads it. *)
Record LayoutState : Type :=
  mkState { nodes : list LayoutNode;
            nodeMap : gmap positive NodeInfo;
            calls : list Call }.

Record Layout : Type :=
  mkLayout { lay_nodes : list LayoutNode;
             lay_links : list LayoutLink;
             width : Q;
             height : Q }.

(** ** The monad of the effect

    A computation reads and writes the shared state; [None] stands for a
    violated non-null assertion ([nodeMap.get(node)!] on a missing key, or
    an index outside [childCenters]). *)
Definition M (A : Type) : Type := LayoutState -> option (A * LayoutState).

Definition ret {A} (a : A) : M A := fun s => Some (a, s).

Definition bind {A B} (m : M A) (k : A -> M B) : M B :=
  fun s => match m s with
           | Some (a, s') => k a s'
           | None => None
           end.

Notation "'do' p <- m ; k" := (bind m (fun p => k))
  (at level 10, p pattern, m at level 100, k at level 200).

(** [nodeMap.get(n)!] *)
Definition nodeMap_get (n : MindMapNode) : M NodeInfo :=
  fun s => match nodeMap s !! ref n with
           | Some i => Some (i, s)
           | None => None
           end.

(** [nodeMap.set(n, i)] *)
Definition nodeMap_set (n : MindMapNode) (i : NodeInfo) : M unit :=
  fun s => Some (tt, mkState (nodes s) (<[ref n := i]> (nodeMap s)) (calls s)).

(** [nodes.push(ln)] *)
Definition nodes_push (ln : LayoutNode) : M unit :=
  fun s => Some (tt, mkState (nodes s ++ [ln]) (nodeMap s) (calls s)).

(** Ghost step on entry of [calculateFinalLayout]: log the activation. *)
Definition enter (c : Call) : M unit :=
  fun s => Some (tt, mkState (nodes s) (nodeMap s) (calls s ++ [c])).

(** An array read [a[i]] whose result is used as a number. *)
Definition index {A} (a : list A) (i : nat) : M A :=
  fun s => match a !! i with
           | Some v => Some (v, s)
           | None => None
           end.

(** [array.forEach(body)] where the callback updates local variables of the
    enclosing function: the locals are threaded as [acc]. *)
Section ForEach.
Context {A L : Type}.
Variable body : A -> L -> M L.

Fixpoint forEach (a : list A) (acc : L) : M L :=
  match a with
  | [] => ret acc
  | v :: rest => do acc' <- body v acc; forEach rest acc'
  end.

End ForEach.

(** ** Pass 1: subtree heights (lines 70-81) *)

Fixpoint calculateInitialY (n : MindMapNode) : M Q :=
  match n with
  | mkNode _ _ ch =>
      do subtreeHeight <-
        match ch with
        | None => ret (NODE_HEIGHT + VERTICAL_SEPARATION)
        | Some [] => ret (NODE_HEIGHT + VERTICAL_SEPARATION)
        | Some cs =>
            forEach (fun child subtreeHeight =>
                       do h <- calculateInitialY child;
                       ret (subtreeHeight + h)) cs 0
        end;
      do _ <- nodeMap_set n (mkInfo 0 subtreeHeight);
      ret subtreeHeight
  end.

(** ** Pass 2: final coordinates (lines 86-107) *)

Definition Qlevel (l : nat) : Q := inject_Z (Z.of_nat l).

Fixpoint calculateFinalLayout (n : MindMapNode) (level : nat) (yOffset : Q) : M Q :=
  match n with
  | mkNode _ _ ch =>
      do _ <- enter (mkCall n level yOffset);
      do nodeInfo <- nodeMap_get n;
      let x := Qlevel level * HORIZONTAL_SEPARATION in
      do y <-
        match ch with
        | None => ret (yOffset + subtreeHeight nodeInfo / 2)
        | Some [] => ret (yOffset + subtreeHeight nodeInfo / 2)
        | Some cs =>
            do loc <-
              forEach (fun child loc =>
                         let '(childYOffset, childCenters) := loc in
                         do childLayoutY <- calculateFinalLayout child (S level) childYOffset;
                         do childInfo <- nodeMap_get child;
                         ret (childYOffset + subtreeHeight childInfo,
                              childCenters ++ [childLayoutY]))
                      cs (yOffset, []);
            let childCenters := snd loc in
            do first <- index childCenters 0;
            do last <- index childCenters (length childCenters - 1);
            ret ((first + last) / 2)
        end;
      do _ <- nodes_push (mkLayoutNode n x y level);
      do _ <- nodeMap_set n (mkInfo y (subtreeHeight nodeInfo));
      ret y
  end.

(** ** Links (lines 112-125) *)

Definition same_node (a b : MindMapNode) : bool := bool_decide (ref a = ref b).

(** [nodes.find(n => n.node === childNode)] *)
Definition find_node (ns : list LayoutNode) (childNode : MindMapNode) : option LayoutNode :=
  List.find (fun t => same_node (node t) childNode) ns.

(** The link pushed for a source and the target found for one of its children. *)
Definition edge (src tgt : LayoutNode) : LayoutLink :=
  mkLink (mkPoint (x src + NODE_WIDTH) (y src)) (mkPoint (x tgt) (y tgt)).

Definition links_of (ns : list LayoutNode) (src : LayoutNode) : list LayoutLink :=
  match children (node src) with
  | None => []
  | Some cs =>
      flat_map (fun childNode =>
                  match find_node ns childNode with
                  | Some tgt => [edge src tgt]
                  | None => []
                  end) cs
  end.

Definition make_links (ns : list LayoutNode) : list LayoutLink :=
  flat_map (links_of ns) ns.

(** ** SVG dimensions (lines 128-130) *)

(** [Math.max(...a)]; [None] stands for the [-Infinity] of an empty list. *)
Definition Math_max (a : list Q) : option Q :=
  match a with
  | [] => None
  | v :: rest => Some (fold_left Qmax rest v)
  end.

Definition initial_state : LayoutState := mkState [] ∅ [].

(** Both passes, as the effect runs them: [totalHeight] and the final state. *)
Definition run_passes (data : MindMapNode) : option (Q * LayoutState) :=
  (do totalHeight <- calculateInitialY data;
   do _ <- calculateFinalLayout data 0 0;
   ret totalHeight) initial_state.

(** The value handed to [setLayout]. *)
Definition computeLayout (data : MindMapNode) : option Layout :=
  match run_passes data with
  | None => None
  | Some (totalHeight, s) =>
      match Math_max (map x (nodes s)) with
      | None => None
      | Some m =>
          let maxX := m + NODE_WIDTH in
          Some (mkLayout (nodes s) (make_links (nodes s)) (maxX + 40) (totalHeight + 40))
      end
  end.

(** The body of [useEffect] at run time, where the prop [data] may be
    [null] or [undefined] in spite of its declared type.  The effect
    allocates [nodes] and [nodeMap] and calls [calculateInitialY(data)]; the
    first statement that touches [data] is the read of [node.children] on
    line 72, which throws [TypeError] on a null value.  [setLayout] is
    reached only after both passes have returned. *)
Inductive Outcome : Type :=
| Thrown_TypeError (s : LayoutState)  (* the shared variables at the throw *)
| Assertion_violated                  (* a [!] that did not hold *)
| SetLayout (l : Layout).

Definition layoutEffect (data : option MindMapNode) : Outcome :=
  match data with
  | None => Thrown_TypeError initial_state
  | Some root =>
      match computeLayout root with
      | Some l => SetLayout l
      | None => Assertion_violated
      end
  end.

(** ** Pass 1 on run-time values (lines 66-83)

    TypeScript erases the declared type [MindMapNode]: at run time [data],
    and any element of a [children] array parsed from JSON, is an object or
    [null]/[undefined].  The source has no check for that; what happens is
    decided by the first statement that touches the value, the read of
    [node.children] on line 72, which throws [TypeError] on [null]. *)
#[warnings="-register-all"]
Inductive JsNode : Type :=
| JsNull
| JsObject (r : positive) (t : string) (ch : option (list JsNode)).

(** The only exception the effect can raise. *)
Inductive JsError : Type := TypeError.

(** The shared variables, with a ghost log of the activations of
    [calculateInitialY] in the order they are entered. *)
Record Pass1State : Type :=
  mkP1 { p1_vars : LayoutState; p1_entered : list JsNode }.

(** How a call ends: it returns a value or throws. *)
Inductive Completion (A : Type) : Type :=
| Normal (a : A) (s : Pass1State)
| Abrupt (e : JsError) (s : Pass1State).
Arguments Normal {A} a s.
Arguments Abrupt {A} e s.

Definition J (A : Type) : Type := Pass1State -> Completion A.

Definition jret {A} (a : A) : J A := fun s => Normal a s.

Definition jbind {A B} (m : J A) (k : A -> J B) : J B :=
  fun s => match m s with
           | Normal a s' => k a s'
           | Abrupt e s' => Abrupt e s'
           end.

Definition throw {A} (e : JsError) : J A := fun s => Abrupt e s.

(** Ghost step on entry of [calculateInitialY]. *)
Definition enter_pass1 (node : JsNode) : J unit :=
  fun s => Normal tt (mkP1 (p1_vars s) (p1_entered s ++ [node])).

(** [nodeMap.set(node, i)] for the object of identity [r]. *)
Definition jnodeMap_set (r : positive) (i : NodeInfo) : J unit :=
  fun s => Normal tt (mkP1 (mkState (nodes (p1_vars s))
                                    (<[r := i]> (nodeMap (p1_vars s)))
                                    (calls (p1_vars s)))
                           (p1_entered s)).

Section JForEach.
Context {A L : Type}.
Variable body : A -> L -> J L.

Fixpoint jforEach (a : list A) (acc : L) : J L :=
  match a with
  | [] => jret acc
  | v :: rest => jbind (body v acc) (fun acc' => jforEach rest acc')
  end.

End JForEach.

(** [calculateInitialY] (lines 70-81) on a run-time value. *)
Fixpoint calculateInitialY_js (node : JsNode) : J Q :=
  jbind (enter_pass1 node) (fun _ =>
  match node with
  | JsNull => throw TypeError
  | JsObject r _ ch =>
      jbind (match ch with
             | None => jret (NODE_HEIGHT + VERTICAL_SEPARATION)
             | Some [] => jret (NODE_HEIGHT + VERTICAL_SEPARATION)
             | Some cs =>
                 jforEach (fun child subtreeHeight =>
                             jbind (calculateInitialY_js child) (fun h =>
                             jret (subtreeHeight + h))) cs 0
             end) (fun subtreeHeight =>
      jbind (jnodeMap_set r (mkInfo 0 subtreeHeight)) (fun _ =>
      jret subtreeHeight))
  end).

(** The object tree behind a value, when no [null] occurs in it. *)
Fixpoint as_tree (v : JsNode) : option MindMapNode :=
  match v with
  | JsNull => None
  | JsObject r t ch =>
      match ch with
      | None => Some (mkNode r t None)
      | Some cs =>
          match (fix all (l : list JsNode) : option (list MindMapNode) :=
                   match l with
                   | [] => Some []
                   | c :: rest =>
                       match as_tree c, all rest with
                       | Some c', Some rest' => Some (c' :: rest')
                       | _, _ => None
                       end
                   end) cs with
          | Some cs' => Some (mkNode r t (Some cs'))
          | None => None
          end
      end
  end.

(** The value of an object tree. *)
Fixpoint of_tree (n : MindMapNode) : JsNode :=
  match n with
  | mkNode r t ch => JsObject r t (option_map (map of_tree) ch)
  end.

(** [null] occurs in the value, at the root or below. *)
Fixpoint has_null (v : JsNode) : bool :=
  match v with
  | JsNull => true
  | JsObject _ _ ch =>
      match ch with
      | None => false
      | Some cs => existsb has_null cs
      end
  end.

(** How the body of [useEffect] ends. *)
Inductive EffectOutcome : Type :=
| Effect_threw (e : JsError) (s : Pass1State)
| Effect_assertion_violated
| Effect_setLayout (l : Layout).

(** The body of [useEffect] on a run-time value: lines 66-67 allocate
    [nodes] and [nodeMap], line 83 runs pass 1.  Once pass 1 has returned,
    every value it entered is an object ([pass1_returns_objects]) and the
    rest of the effect is [computeLayout] on that object tree. *)
Definition useEffect_body (data : JsNode) : EffectOutcome :=
  match calculateInitialY_js data (mkP1 initial_state []) with
  | Abrupt e s => Effect_threw e s
  | Normal _ _ =>
      match as_tree data with
      | Some T =>
          match computeLayout T with
          | Some l => Effect_setLayout l
          | None => Effect_assertion_violated
          end
      | None => Effect_assertion_violated
      end
  end.

(** The effect rejects [data] before the layout begins: it ends abruptly
    without having entered pass 1. *)
Definition rejected_before_layout (data : JsNode) : Prop :=
  exists e s, useEffect_body data = Effect_threw e s /\ p1_entered s = [].

(** root -> [leaf; child -> [null]] *)
Definition null_grandchild : JsNode :=
  JsObject 1 "" (Some [JsObject 2 "" None; JsObject 3 "" (Some [JsNull])]).

(** ** Sample trees *)

Definition leaf (r : positive) : MindMapNode := mkNode r "" None.
Definition branch (r : positive) (cs : list MindMapNode) : MindMapNode :=
  mkNode r "" (Some cs).

(** root -> [child1 (leaf); child2 -> three leaves] *)
Definition sample_tree : MindMapNode :=
  branch 1 [leaf 2; branch 3 [leaf 4; leaf 5; leaf 6]].

Definition chain2 : MindMapNode := branch 1 [leaf 2].

(** root -> three leaves *)
Definition fan3 : MindMapNode := branch 1 [leaf 2; leaf 3; leaf 4].

(** root -> [a -> shared leaf; b -> the same leaf object] *)
Definition shared_leaf : MindMapNode :=
  branch 1 [branch 2 [leaf 4]; branch 3 [leaf 4]].

(** A layout node as (identity, x, y, level), with reduced fractions. *)
Definition summary (a : LayoutNode) : positive * Q * Q * nat :=
  (ref (node a), Qred (x a), Qred (y a), level a).

Definition link_summary (e : LayoutLink) : (Q * Q) * (Q * Q) :=
  ((Qred (px (source e)), Qred (py (source e))), (Qred (px (target e)), Qred (py (target e)))).


(** ** Traversals and measures of a tree *)

Definition kids (n : MindMapNode) : list MindMapNode :=
  match children n with
  | Some cs => cs
  | None => []
  end.

Fixpoint preorder (n : MindMapNode) : list MindMapNode :=
  match n with
  | mkNode _ _ ch =>
      n :: match ch with
           | None => []
           | Some cs => concat (map preorder cs)
           end
  end.

Fixpoint postorder (n : MindMapNode) : list MindMapNode :=
  match n with
  | mkNode _ _ ch =>
      match ch with
      | None => []
      | Some cs => concat (map postorder cs)
      end ++ [n]
  end.

Fixpoint countNodes (n : MindMapNode) : nat :=
  match n with
  | mkNode _ _ ch =>
      S match ch with
        | None => 0
        | Some cs => list_sum (map countNodes cs)
        end
  end.

Fixpoint leafCount (n : MindMapNode) : nat :=
  match n with
  | mkNode _ _ ch =>
      match ch with
      | None => 1
      | Some [] => 1
      | Some cs => list_sum (map leafCount cs)
      end
  end.

(** The nodes of the tree paired with their depth, in post-order. *)
Fixpoint with_depth (n : MindMapNode) (k : nat) : list (MindMapNode * nat) :=
  match n with
  | mkNode _ _ ch =>
      match ch with
      | None => []
      | Some cs => concat (map (fun c => with_depth c (S k)) cs)
      end ++ [(n, k)]
  end.

(** No node object is reachable twice: the input is a tree. *)
Definition is_tree (n : MindMapNode) : Prop := NoDup (map ref (preorder n)).

#[global] Instance is_tree_dec n : Decision (is_tree n).
Proof. unfold is_tree. apply _. Defined.

(** ** Closed forms of the two passes

    Pure functions that the passes are proved to compute; the claims are
    stated on the code and proved through them. *)

(** The value returned by [calculateInitialY], accumulated as the loop does. *)
Fixpoint treeHeight (n : MindMapNode) : Q :=
  match n with
  | mkNode _ _ ch =>
      match ch with
      | None => NODE_HEIGHT + VERTICAL_SEPARATION
      | Some [] => NODE_HEIGHT + VERTICAL_SEPARATION
      | Some cs => fold_left (fun acc c => acc + treeHeight c) cs 0
      end
  end.

(** What pass 1 writes into [nodeMap], one entry per node of [l] in order. *)
Definition set_heights (l : list MindMapNode) (s : LayoutState) : LayoutState :=
  mkState (nodes s)
          (fold_left (fun m d => <[ref d := mkInfo 0 (treeHeight d)]> m) l (nodeMap s))
          (calls s).

(** The children of a node laid out one below the other: each child is
    handed the running offset, which then grows by the child's height. *)
Section Stack.
Context {B : Type}.
Variable f : MindMapNode -> Q -> B.

Fixpoint stack (cs : list MindMapNode) (yo : Q) : list B :=
  match cs with
  | [] => []
  | c :: r => f c yo :: stack r (yo + treeHeight c)
  end.

End Stack.

(** The [y] returned by [calculateFinalLayout n _ yo]. *)
Fixpoint centerY (n : MindMapNode) (yo : Q) : Q :=
  match n with
  | mkNode _ _ ch =>
      match ch with
      | None => yo + (NODE_HEIGHT + VERTICAL_SEPARATION) / 2
      | Some [] => yo + (NODE_HEIGHT + VERTICAL_SEPARATION) / 2
      | Some cs =>
          let centers := stack centerY cs yo in
          (default 0 (head centers) + default 0 (last centers)) / 2
      end
  end.

(** The layout nodes pushed by [calculateFinalLayout n level yo]. *)
Fixpoint placed (n : MindMapNode) (level : nat) (yo : Q) : list LayoutNode :=
  match n with
  | mkNode _ _ ch =>
      match ch with
      | None => []
      | Some cs => concat (stack (fun c o => placed c (S level) o) cs yo)
      end ++ [mkLayoutNode n (Qlevel level * HORIZONTAL_SEPARATION) (centerY n yo) level]
  end.

(** The activations entered by [calculateFinalLayout n level yo]. *)
Fixpoint visited (n : MindMapNode) (level : nat) (yo : Q) : list Call :=
  match n with
  | mkNode _ _ ch =>
      mkCall n level yo ::
      match ch with
      | None => []
      | Some cs => concat (stack (fun c o => visited c (S level) o) cs yo)
      end
  end.

(** The offset after the last child of [cs]. *)
Definition bottom (cs : list MindMapNode) (yo : Q) : Q :=
  fold_left (fun acc c => acc + treeHeight c) cs yo.

(** The children paired with the offset each one is handed. *)
Fixpoint slots (cs : list MindMapNode) (yo : Q) : list (MindMapNode * Q) :=
  match cs with
  | [] => []
  | c :: r => (c, yo) :: slots r (yo + treeHeight c)
  end.

(** [nodeMap] gives every node of [T] its subtree height. *)
Definition heights_ok (T : list MindMapNode) (m : gmap positive NodeInfo) : Prop :=
  forall d, d ∈ T -> exists i, m !! ref d = Some i /\ subtreeHeight i = treeHeight d.

(** ** Notions used to state the results *)

(** What pass 2 does on [n] when [nodeMap] holds the heights of [T]. *)
Definition pass2_ok (n : MindMapNode) : Prop :=
  forall T level yo s,
    (forall d, d ∈ preorder n -> d ∈ T) ->
    heights_ok T (nodeMap s) ->
    exists m',
      calculateFinalLayout n level yo s
      = Some (centerY n yo,
              mkState (nodes s ++ placed n level yo) m' (calls s ++ visited n level yo))
      /\ heights_ok T m'.

(** The entry pass 1 writes for [d]. *)
Definition record_height (m : gmap positive NodeInfo) (d : MindMapNode) :
  gmap positive NodeInfo :=
  <[ref d := mkInfo 0 (treeHeight d)]> m.

(** Every (source, child) pair the link loop visits, in its order. *)
Definition child_pairs (ns : list LayoutNode) : list (LayoutNode * MindMapNode) :=
  flat_map (fun src => map (pair src) (kids (node src))) ns.

(** The link [e] is the one pushed for the pair [p]. *)
Definition link_for (ns : list LayoutNode) (p : LayoutNode * MindMapNode) (e : LayoutLink) : Prop :=
  exists tgt, tgt ∈ ns /\ node tgt = snd p /\ e = edge (fst p) tgt.

(** The sum of a list of numbers. *)
Definition Qsum (l : list Q) : Q := fold_right Qplus 0 l.

(** The rectangle the renderer draws for a layout node (lines 246-250):
    [x], [y - NODE_HEIGHT / 2], [NODE_WIDTH] wide and [NODE_HEIGHT] high. *)
Definition box_left (a : LayoutNode) : Q := x a.
Definition box_right (a : LayoutNode) : Q := x a + NODE_WIDTH.
Definition box_top (a : LayoutNode) : Q := y a - NODE_HEIGHT / 2.
Definition box_bottom (a : LayoutNode) : Q := y a - NODE_HEIGHT / 2 + NODE_HEIGHT.

(** Two closed rectangles share a point. *)
Definition boxes_intersect (a b : LayoutNode) : Prop :=
  box_left a <= box_right b /\ box_left b <= box_right a /\
  box_top a <= box_bottom b /\ box_top b <= box_bottom a.

(** The boxes of [a] and [b] have no point in common. *)
Definition apart (a b : LayoutNode) : Prop := ~ boxes_intersect a b.

(** The vertical slot reserved for one leaf. *)
Definition slot : Q := NODE_HEIGHT + VERTICAL_SEPARATION.

(** The subtree height in the words of the specification: one slot for a
    leaf, the sum over the children for an internal node. *)
Fixpoint spec_subtreeHeight (n : MindMapNode) : Q :=
  match n with
  | mkNode _ _ ch =>
      match ch with
      | None => NODE_HEIGHT + VERTICAL_SEPARATION
      | Some [] => NODE_HEIGHT + VERTICAL_SEPARATION
      | Some cs => Qsum (map spec_subtreeHeight cs)
      end
  end.

(** [q] lies in the half-open band that starts at [o] and is [h] high. *)
Definition in_band (o h q : Q) : Prop := o <= q /\ q < o + h.

(** What pass 2 guarantees for the children [cs] of the activation [p]. *)
Definition children_stacked (st : LayoutState) (p : Call) (cs : list MindMapNode) : Prop :=
  (forall c, head cs = Some c ->
     mkCall c (S (arg_level p)) (arg_yOffset p) ∈ calls st) /\
  (forall c, c ∈ cs ->
     exists o info, mkCall c (S (arg_level p)) o ∈ calls st /\ nodeMap st !! ref c = Some info) /\
  (forall i ci cj pi pj info,
     cs !! i = Some ci -> cs !! S i = Some cj ->
     pi ∈ calls st -> arg_node pi = ci -> pj ∈ calls st -> arg_node pj = cj ->
     nodeMap st !! ref ci = Some info ->
     arg_yOffset pj = arg_yOffset pi + subtreeHeight info) /\
  (forall i j ci cj pi pj ii ij q,
     i <> j -> cs !! i = Some ci -> cs !! j = Some cj ->
     pi ∈ calls st -> arg_node pi = ci -> pj ∈ calls st -> arg_node pj = cj ->
     nodeMap st !! ref ci = Some ii -> nodeMap st !! ref cj = Some ij ->
     ~ (in_band (arg_yOffset pi) (subtreeHeight ii) q /\
        in_band (arg_yOffset pj) (subtreeHeight ij) q)).

(** Equality of points and links as numbers, whatever the fraction. *)
Definition same_point (a b : Point) : Prop := px a == px b /\ py a == py b.

Definition same_link (e f : LayoutLink) : Prop :=
  same_point (source e) (source f) /\ same_point (target e) (target f).

(** ** The renderer (lines 176-190 and 221-259) *)

(** [<g transform="translate(20, 20)">] on line 228 shifts every node and
    link by this much inside the [svg] of [width] by [height]. *)
Definition INSET : Q := 20.

(** The numbers [getPath] interpolates into its path string, in order:
    [M source C control1 control2 target]. *)
Record PathD : Type :=
  mkPathD { path_start : Point; control1 : Point; control2 : Point; path_end : Point }.

Definition getPath (link : LayoutLink) : PathD :=
  let controlX1 := px (source link) + (px (target link) - px (source link)) * (1 # 2) in
  let controlY1 := py (source link) in
  let controlX2 := px (source link) + (px (target link) - px (source link)) * (1 # 2) in
  let controlY2 := py (target link) in
  mkPathD (source link) (mkPoint controlX1 controlY1) (mkPoint controlX2 controlY2)
          (target link).

Definition levelColors : list string :=
  ["from-indigo-600 to-purple-600"; "from-sky-600 to-cyan-600";
   "from-emerald-500 to-lime-500"; "from-amber-500 to-orange-500"].

(** [levelColors[level % levelColors.length]]; [None] is [undefined]. *)
Definition level_color (level : nat) : option string :=
  levelColors !! (level mod length levelColors)%nat.

(** ** Panning (lines 58-63 and 136-164; the same handlers are in
    Library.tsx, lines 24-29 and 53-82) *)

(** [scrollContainerRef.current], as far as the handlers touch it. *)
Record Container : Type :=
  mkContainer { offsetLeft : Q; offsetTop : Q;
                scrollLeft : Q; scrollTop : Q;
                cursor : string; userSelect : string }.

Record MouseEvent : Type := mkMouseEvent { pageX : Q; pageY : Q }.

(** The six refs of the component; [scrollContainer] is [None] while the
    [div] is not mounted. *)
Record PanState : Type :=
  mkPan { scrollContainer : option Container;
          isPanning : bool;
          startX : Q; startY : Q;
          scrollLeftStart : Q; scrollTopStart : Q }.

Inductive PanEvent : Type :=
| MouseDown (e : MouseEvent)
| MouseUp
| MouseLeave
| MouseMove (e : MouseEvent).

Section Panning.

(** What the browser stores when [scrollLeft] or [scrollTop] is assigned:
    the nearest position the content allows. *)
Variables clampLeft clampTop : Q -> Q.

Definition handleMouseDown (e : MouseEvent) (s : PanState) : PanState :=
  match scrollContainer s with
  | None => s
  | Some c =>
      mkPan (Some (mkContainer (offsetLeft c) (offsetTop c) (scrollLeft c) (scrollTop c)
                               "grabbing" "none"))
            true
            (pageX e - offsetLeft c) (pageY e - offsetTop c)
            (scrollLeft c) (scrollTop c)
  end.

Definition handleMouseUpAndLeave (s : PanState) : PanState :=
  mkPan (match scrollContainer s with
         | Some c => Some (mkContainer (offsetLeft c) (offsetTop c) (scrollLeft c) (scrollTop c)
                                       "grab" "auto")
         | None => None
         end)
        false (startX s) (startY s) (scrollLeftStart s) (scrollTopStart s).

(** The new state, and whether [e.preventDefault()] was called. *)
Definition handleMouseMove (e : MouseEvent) (s : PanState) : PanState * bool :=
  match isPanning s, scrollContainer s with
  | true, Some c =>
      let x := pageX e - offsetLeft c in
      let y := pageY e - offsetTop c in
      let walkX := x - startX s in
      let walkY := y - startY s in
      (mkPan (Some (mkContainer (offsetLeft c) (offsetTop c)
                                (clampLeft (scrollLeftStart s - walkX))
                                (clampTop (scrollTopStart s - walkY))
                                (cursor c) (userSelect c)))
             (isPanning s) (startX s) (startY s) (scrollLeftStart s) (scrollTopStart s),
       true)
  | _, _ => (s, false)
  end.

(** The handlers as wired on lines 196-199. *)
Definition pan_step (s : PanState) (ev : PanEvent) : PanState :=
  match ev with
  | MouseDown e => handleMouseDown e s
  | MouseUp => handleMouseUpAndLeave s
  | MouseLeave => handleMouseUpAndLeave s
  | MouseMove e => fst (handleMouseMove e s)
  end.

Definition pan_run (evs : list PanEvent) (s : PanState) : PanState :=
  fold_left pan_step evs s.

End Panning.

(** The refs after mounting a container whose inline style is still unset. *)
Definition pan_mounted (c : Container) : PanState := mkPan (Some c) false 0 0 0 0.

Definition is_move (ev : PanEvent) : Prop :=
  match ev with MouseMove _ => True | _ => False end.

(** A clamp to the scrollable range [0, hi]. *)
Definition clamp_to (hi v : Q) : Q := Qmax 0 (Qmin v hi).

(** The state during a drag that started at [e0] on the container [c0]. *)
Definition dragging (c0 : Container) (e0 : MouseEvent) (s : PanState) : Prop :=
  isPanning s = true /\
  startX s = pageX e0 - offsetLeft c0 /\ startY s = pageY e0 - offsetTop c0 /\
  scrollLeftStart s = scrollLeft c0 /\ scrollTopStart s = scrollTop c0 /\
  exists c, scrollContainer s = Some c /\
            offsetLeft c = offsetLeft c0 /\ offsetTop c = offsetTop c0 /\
            cursor c = "grabbing" /\ userSelect c = "none".

(** JavaScript numbers are doubles: a subtraction whose operands and result
    are integers of magnitude at most [Number.MAX_SAFE_INTEGER] is computed
    without rounding, so that the rational arithmetic of the handlers above
    is what the engine computes. *)
Definition MAX_SAFE_INTEGER : Z := 9007199254740991.

Definition int_within (bound : Z) (v : Q) : Prop :=
  exists z : Z, v == inject_Z z /\ (Z.abs z <= bound)%Z.

Definition safe_integer (v : Q) : Prop := int_within MAX_SAFE_INTEGER v.

(** Whole numbers of magnitude at most 2^50, which covers page coordinates,
    element offsets and whole-pixel scroll positions. *)
Definition small_integer (v : Q) : Prop := int_within 1125899906842624 v.

Definition exact_sub (a b : Q) : Prop :=
  safe_integer a /\ safe_integer b /\ safe_integer (a - b).

(** The subtractions of one axis of a drag, in the order the handlers
    perform them: line 139 (or 140) at the press, then lines 158, 160 and
    162 (or 159, 161 and 163) at the move. *)
Definition axis_exact (page0 page offset scrollStart : Q) : Prop :=
  exact_sub page0 offset /\
  exact_sub page offset /\
  exact_sub (page - offset) (page0 - offset) /\
  exact_sub scrollStart ((page - offset) - (page0 - offset)).

(** The grabbing cursor is shown exactly while a drag is in progress. *)
Definition cursor_tracks_drag (s : PanState) : Prop :=
  exists c, scrollContainer s = Some c /\
            (isPanning s = true <-> cursor c = "grabbing") /\
            (isPanning s = true <-> userSelect c = "none").

(** ** The library behind the callers (App.tsx, lines 36-37, 45-48 and
    92-127; Summarizer.tsx, lines 88-100; Library.tsx, lines 103-111) *)

Inductive UserRole : Type := STUDENT | TEACHER.

Definition UserRole_string (r : UserRole) : string :=
  match r with STUDENT => "student" | TEACHER => "teacher" end.

Inductive LibraryItemType : Type := SUMMARY | EXAM | REVIEW_EXERCISES | SIMILAR_EXERCISES.

#[global] Instance LibraryItemType_eq_dec : EqDecision LibraryItemType.
Proof. solve_decision. Defined.

(** [content: any]: a string for markdown, an object for a summary; of an
    object only the field [mindMap] is ever read. *)
Inductive Content : Type :=
| ContentString (s : string)
| ContentObject (mindMap : option MindMapNode).

(** [LibraryItem]; the fields are [id], [name], [type], [content] and
    [timestamp] in the source. *)
Record LibraryItem : Type :=
  mkItem { item_id : string; item_name : string; item_type : LibraryItemType;
           item_content : Content; item_timestamp : Z }.

(** [Omit<LibraryItem, 'id' | 'timestamp'>] *)
Record ItemData : Type :=
  mkItemData { data_name : string; data_type : LibraryItemType; data_content : Content }.

(** The state of [App] the library functions read and write, with the
    browser's [localStorage] and the messages passed to [alert].  State
    updates are taken to be in force when the next handler runs. *)
Record AppState : Type :=
  mkApp { userRole : option UserRole;
          library : list LibraryItem;
          libraryUsage_used : nat;
          localStorage : gmap string string;
          alerts : list string }.

Section App.

(** Not in the sources at hand: [STORAGE_LIMIT_BYTES] and the table behind
    [t] (constants.ts); [JSON.stringify] on a library, the byte length of
    [new TextEncoder().encode(s)] and the decimal rendering of a number are
    the platform's. *)
Variable STORAGE_LIMIT_BYTES : nat.
Variable t : string -> string.
Variable JSON_stringify : list LibraryItem -> string.
Variable byteLength : string -> nat.
Variable Number_toString : Z -> string.

Definition getLibraryStorageKey (st : AppState) : option string :=
  match userRole st with
  | None => None
  | Some r => Some ("triVietLibrary_" ++ UserRole_string r)%string
  end.

(** [now_id] and [now_ts] are the results of the two calls of [Date.now()]. *)
Definition addToLibrary (itemData : ItemData) (now_id now_ts : Z) (st : AppState) : AppState :=
  match getLibraryStorageKey st with
  | None => st
  | Some key =>
      let newItem := mkItem (Number_toString now_id) (data_name itemData)
                            (data_type itemData) (data_content itemData) now_ts in
      let updatedLibrary := newItem :: library st in
      let newLibraryString := JSON_stringify updatedLibrary in
      let newSize := byteLength newLibraryString in
      if (STORAGE_LIMIT_BYTES <? newSize)%nat
      then mkApp (userRole st) (library st) (libraryUsage_used st) (localStorage st)
                 (alerts st ++ [t "storage_full"])
      else mkApp (userRole st) updatedLibrary newSize
                 (<[key := newLibraryString]> (localStorage st)) (alerts st)
  end.

Definition removeFromLibrary (id : string) (st : AppState) : AppState :=
  match getLibraryStorageKey st with
  | None => st
  | Some key =>
      let updatedLibrary :=
        List.filter (fun item => negb (String.eqb (item_id item) id)) (library st) in
      let newLibraryString := JSON_stringify updatedLibrary in
      let newSize := byteLength newLibraryString in
      mkApp (userRole st) updatedLibrary newSize
            (<[key := newLibraryString]> (localStorage st)) (alerts st)
  end.

(** [handleSave] of [Summarizer], as far as it changes the state of [App]
    (it also swaps the label of the save button for two seconds). *)
Definition handleSave (mindMap : option MindMapNode) (fileName : string)
           (now_id now_ts : Z) (st : AppState) : AppState :=
  match mindMap with
  | None => st
  | Some m =>
      let name := (t "summary" ++ " - "
                   ++ (if String.eqb fileName "" then title m else fileName))%string in
      addToLibrary (mkItemData name SUMMARY (ContentObject (Some m))) now_id now_ts st
  end.

(** The calls of the library functions, for sequences of them. *)
Inductive LibraryOp : Type :=
| OpAdd (itemData : ItemData) (now_id now_ts : Z)
| OpRemove (id : string).

Definition library_step (st : AppState) (op : LibraryOp) : AppState :=
  match op with
  | OpAdd d n1 n2 => addToLibrary d n1 n2 st
  | OpRemove id => removeFromLibrary id st
  end.

(** [localStorage] holds the serialised library and the usage is its size. *)
Definition in_sync (st : AppState) : Prop :=
  exists key,
    getLibraryStorageKey st = Some key /\
    localStorage st !! key = Some (JSON_stringify (library st)) /\
    libraryUsage_used st = byteLength (JSON_stringify (library st)).

End App.

(** ** Loading the library and localised strings (App.tsx, lines 39-43 and
    50-71) *)

Inductive Language : Type := EN | VI | ZH | FR.

(** The left operand of [||] when it is a string or [undefined]: the empty
    string and [undefined] are falsy. *)
Definition truthy (v : option string) : option string :=
  match v with
  | Some s => if String.eqb s "" then None else Some s
  | None => None
  end.

(** What reading a property of a translation table gives: a string of the
    table, or a member that the table inherits from [Object.prototype]
    ([constructor], [toString], ...), which is a function or an object. *)
Inductive TValue : Type :=
| TString (s : string)
| TInherited (key : string).

(** The left operand of [||] when it is truthy: a non-empty string, or any
    function or object. *)
Definition truthy_value (v : option TValue) : option TValue :=
  match v with
  | Some (TString s) => if String.eqb s "" then None else Some (TString s)
  | Some (TInherited k) => Some (TInherited k)
  | None => None
  end.

Section Localisation.

(** [LOCALIZATION_STRINGS] (constants.ts, not at hand): a table per
    language, which the code allows to be missing ([?.]); the gmap holds the
    own properties of each table. *)
Variable LOCALIZATION_STRINGS : Language -> option (gmap string string).

(** The names of the members of [Object.prototype], which every table, being
    a plain object, inherits. *)
Variable Object_prototype_has : string -> bool.

(** [table[key]]: the own property, else the inherited member, else
    [undefined]. *)
Definition table_get (table : gmap string string) (key : string) : option TValue :=
  match table !! key with
  | Some s => Some (TString s)
  | None => if Object_prototype_has key then Some (TInherited key) else None
  end.

(** [t]; [None] is the [TypeError] of reading [key] from a missing English
    table. *)
Definition App_t (language : option Language) (key : string) : option TValue :=
  let lang := default EN language in
  match truthy_value (match LOCALIZATION_STRINGS lang with
                      | Some table => table_get table key
                      | None => None
                      end) with
  | Some v => Some v
  | None =>
      match LOCALIZATION_STRINGS EN with
      | None => None
      | Some en =>
          match truthy_value (table_get en key) with
          | Some v => Some v
          | None => Some (TString key)
          end
      end
  end.

End Localisation.

Section Load.

(** [JSON.parse]; [None] when it throws. *)
Variable JSON_parse : string -> option (list LibraryItem).
Variable byteLength : string -> nat.

(** The effect that runs when [userRole] changes (lines 50-71); a failed
    parse is also reported with [console.error]. *)
Definition loadLibrary (st : AppState) : AppState :=
  match getLibraryStorageKey st with
  | None => st
  | Some key =>
      match truthy (localStorage st !! key) with
      | Some savedData =>
          match JSON_parse savedData with
          | Some items =>
              mkApp (userRole st) items (byteLength savedData) (localStorage st) (alerts st)
          | None =>
              mkApp (userRole st) [] 0 (localStorage st) (alerts st)
          end
      | None => mkApp (userRole st) [] 0 (localStorage st) (alerts st)
      end
  end.

End Load.

(** What [renderItemContent] of [Library] returns. *)
Inductive ItemView : Type :=
| MindMapView (data : MindMapNode)
| MarkdownView (markdown : string)
| JsonView (content : Content).

(** [item.content.mindMap]; [undefined] on a string. *)
Definition content_mindMap (c : Content) : option MindMapNode :=
  match c with
  | ContentObject m => m
  | ContentString _ => None
  end.

Definition renderItemContent (item : LibraryItem) : ItemView :=
  match (if decide (item_type item = SUMMARY) then content_mindMap (item_content item)
         else None) with
  | Some m => MindMapView m
  | None =>
      match item_content item with
      | ContentString s => MarkdownView s
      | ContentObject _ => JsonView (item_content item)
      end
  end.

(** A library state for examples: a student with an empty, stored library. *)
Definition empty_student (stringify : list LibraryItem -> string)
           (byteLength : string -> nat) : AppState :=
  mkApp (Some STUDENT) [] (byteLength (stringify []))
        {["triVietLibrary_student" := stringify []]} [].

(** ** Further notions on trees and layouts *)

(** The depth of the deepest node; the root has depth 0. *)
Fixpoint treeDepth (n : MindMapNode) : nat :=
  match n with
  | mkNode _ _ ch =>
      match ch with
      | None => 0%nat
      | Some cs => list_max (map (fun c => S (treeDepth c)) cs)
      end
  end.

(** The test of lines 72 and 91: no [children] field or an empty list. *)
Definition is_leaf (n : MindMapNode) : bool :=
  match children n with
  | None => true
  | Some [] => true
  | Some (_ :: _) => false
  end.

(** The layout nodes of the leaves, in the order of the node list. *)
Definition leaf_nodes (ns : list LayoutNode) : list LayoutNode :=
  List.filter (fun a => is_leaf (node a)) ns.

(** The layout node pushed by the activation [p]. *)
Definition layout_of_call (p : Call) : LayoutNode :=
  mkLayoutNode (arg_node p) (Qlevel (arg_level p) * HORIZONTAL_SEPARATION)
               (centerY (arg_node p) (arg_yOffset p)) (arg_level p).

(** Node objects may be shared between parents, but one identity is one
    object: nodes with the same [ref] are the same node. *)
Definition consistent (n : MindMapNode) : Prop :=
  forall a b, a ∈ preorder n -> b ∈ preorder n -> ref a = ref b -> a = b.

(** A point of the layout, shifted by [INSET], lies on the canvas. *)
Definition on_canvas (L : Layout) (q : Point) : Prop :=
  0 <= INSET + px q /\ INSET + px q <= width L /\
  0 <= INSET + py q /\ INSET + py q <= height L.

(** The leaves of [l], in list order, are centred half a slot, a slot and a
    half, ... below [yo]. *)
Definition leaves_spaced (l : list LayoutNode) (yo : Q) : Prop :=
  forall i a, leaf_nodes l !! i = Some a ->
              y a == yo + slot / 2 + inject_Z (Z.of_nat i) * slot.

(** The usage and the stored string are within the limit. *)
Definition within_limit (limit : nat) (byteLength : string -> nat) (key : string)
           (st : AppState) : Prop :=
  (libraryUsage_used st <= limit)%nat /\
  forall v, localStorage st !! key = Some v -> (byteLength v <= limit)%nat.

(** [animationDelay] of the i-th entry of the node list, in milliseconds
    (line 251). *)
Definition node_animation_delay (i : nat) : nat := (i * 50)%nat.

(** [a] occurs in [l] somewhere before [b]. *)
Definition occurs_before {A} (l : list A) (a b : A) : Prop :=
  exists l1 l2 l3, l = l1 ++ a :: l2 ++ b :: l3.

(** ** Structural induction on trees *)

Section TreeInd.
Variable P : MindMapNode -> Prop.
Hypothesis Hnode : forall r t ch,
    (forall cs, ch = Some cs -> Forall P cs) -> P (mkNode r t ch).

Lemma tree_ind (n : MindMapNode) : P n.
Proof.
  revert n. fix IH 1. intros [r t ch]. apply Hnode.
  destruct ch as [l|]; intros cs E; [|discriminate].
  injection E as <-. induction l as [|c l IHl]; constructor; [apply IH | exact IHl].
Qed.

End TreeInd.

(** ** The monad *)

Lemma bind_Some {A B} (m : M A) (k : A -> M B) s a s' :
  m s = Some (a, s') -> bind m k s = k a s'.
Proof. unfold bind. intros ->. reflexivity. Qed.

Lemma set_heights_app l1 l2 s :
  set_heights (l1 ++ l2) s = set_heights l2 (set_heights l1 s).
Proof. unfold set_heights. simpl. rewrite fold_left_app. reflexivity. Qed.

Lemma set_heights_nil s : set_heights [] s = s.
Proof. destruct s. reflexivity. Qed.

(** ** Pass 1 computes [treeHeight] *)

Lemma pass1_forEach cs :
  Forall (fun c => forall s,
            calculateInitialY c s = Some (treeHeight c, set_heights (postorder c) s)) cs ->
  forall acc s,
    forEach (fun child subtreeHeight =>
               do h <- calculateInitialY child; ret (subtreeHeight + h)) cs acc s
    = Some (bottom cs acc, set_heights (concat (map postorder cs)) s).
Proof.
  induction 1 as [|c cs Hc _ IH]; intros acc s.
  - simpl. rewrite set_heights_nil. reflexivity.
  - cbn [forEach map concat bottom fold_left].
    erewrite bind_Some; [|erewrite bind_Some; [reflexivity|apply Hc]].
    rewrite IH, set_heights_app. reflexivity.
Qed.

Lemma calculateInitialY_spec n :
  forall s, calculateInitialY n s = Some (treeHeight n, set_heights (postorder n) s).
Proof.
  induction n as [r t ch IH] using tree_ind. intros s.
  destruct ch as [[|c cs]|].
  - reflexivity.
  - specialize (IH _ eq_refl).
    cbn [calculateInitialY].
    erewrite bind_Some; [|apply (pass1_forEach _ IH)].
    cbn [postorder treeHeight]. rewrite set_heights_app. reflexivity.
  - reflexivity.
Qed.

(** ** Membership in the traversals *)

Lemma preorder_self n : n ∈ preorder n.
Proof. destruct n as [r t ch]. simpl. left. Qed.

Lemma preorder_child r t cs c d :
  c ∈ cs -> d ∈ preorder c -> d ∈ preorder (mkNode r t (Some cs)).
Proof.
  intros Hc Hd. simpl. right.
  apply list_elem_of_In, in_concat. exists (preorder c). split.
  - apply in_map, list_elem_of_In, Hc.
  - apply list_elem_of_In, Hd.
Qed.

(** ** Pass 2 computes [centerY], [placed] and [visited] *)

Lemma nodeMap_get_ok T d s :
  heights_ok T (nodeMap s) -> d ∈ T ->
  exists i, nodeMap_get d s = Some (i, s) /\ subtreeHeight i = treeHeight d.
Proof.
  intros H Hd. destruct (H d Hd) as (i & E & Hi).
  exists i. unfold nodeMap_get. rewrite E. auto.
Qed.

Lemma pass2_forEach cs :
  Forall pass2_ok cs ->
  forall T level, (forall c d, c ∈ cs -> d ∈ preorder c -> d ∈ T) ->
  forall yo cc s,
    heights_ok T (nodeMap s) ->
    exists m',
      forEach (fun child loc =>
                 let '(childYOffset, childCenters) := loc in
                 do childLayoutY <- calculateFinalLayout child (S level) childYOffset;
                 do childInfo <- nodeMap_get child;
                 ret (childYOffset + subtreeHeight childInfo,
                      childCenters ++ [childLayoutY]))
              cs (yo, cc) s
      = Some ((bottom cs yo, cc ++ stack centerY cs yo),
              mkState (nodes s ++ concat (stack (fun c o => placed c (S level) o) cs yo))
                      m'
                      (calls s ++ concat (stack (fun c o => visited c (S level) o) cs yo)))
      /\ heights_ok T m'.
Proof.
  induction 1 as [|c cs Hc _ IH]; intros T level HT yo cc s Hs.
  - exists (nodeMap s). simpl. rewrite !app_nil_r. destruct s; auto.
  - destruct (Hc T (S level) yo s) as (m1 & E1 & Hm1); [|exact Hs|].
    { intros d Hd. apply (HT c d); [left|exact Hd]. }
    set (s1 := mkState (nodes s ++ placed c (S level) yo) m1
                       (calls s ++ visited c (S level) yo)) in *.
    destruct (nodeMap_get_ok T c s1) as (i & E2 & Hi); [exact Hm1| |].
    { apply (HT c c); [left|apply preorder_self]. }
    destruct (IH T level) with (yo := yo + treeHeight c) (cc := cc ++ [centerY c yo]) (s := s1)
      as (m' & E3 & Hm'); [|exact Hm1|].
    { intros c' d Hc' Hd. apply (HT c' d); [right; exact Hc'|exact Hd]. }
    exists m'. split; [|exact Hm'].
    cbn [forEach].
    erewrite bind_Some;
      [|erewrite bind_Some; [|exact E1]; erewrite bind_Some; [|exact E2]; reflexivity].
    rewrite Hi, E3. subst s1. cbn [nodes calls stack concat bottom fold_left].
    rewrite <- !app_assoc. reflexivity.
Qed.

Lemma stack_length {B} (f : MindMapNode -> Q -> B) cs yo :
  length (stack f cs yo) = length cs.
Proof. revert yo. induction cs as [|c cs IH]; intros yo; simpl; [|rewrite IH]; reflexivity. Qed.

Lemma index_head {A} (d : A) (l : list A) s :
  l <> [] -> index l 0 s = Some (default d (head l), s).
Proof. destruct l; [congruence|reflexivity]. Qed.

Lemma index_last {A} (d : A) (l : list A) s :
  l <> [] -> index l (length l - 1) s = Some (default d (last l), s).
Proof.
  intros Hl. unfold index. rewrite last_lookup.
  replace (length l - 1)%nat with (Nat.pred (length l)) by lia.
  destruct (l !! Nat.pred (length l)) eqn:E; [reflexivity|].
  apply lookup_ge_None in E. destruct l; [congruence|simpl in E; lia].
Qed.

Lemma calculateFinalLayout_spec n : pass2_ok n.
Proof.
  induction n as [r t ch IH] using tree_ind.
  intros T level yo s HT Hs.
  set (n := mkNode r t ch) in *.
  set (s0 := mkState (nodes s) (nodeMap s) (calls s ++ [mkCall n level yo])).
  destruct (Hs n (HT n (preorder_self n))) as (i & Ei & Hi).
  assert (E : nodeMap_get n s0 = Some (i, s0)).
  { unfold nodeMap_get. cbn [nodeMap s0]. rewrite Ei. reflexivity. }
  assert (Hkeep : forall m y h, h = treeHeight n -> heights_ok T m ->
                               heights_ok T (<[ref n := mkInfo y h]> m)).
  { intros m y h Hh Hm d Hd. destruct (decide (ref n = ref d)) as [Er|Er].
    - rewrite Er, lookup_insert_eq. eexists; split; [reflexivity|]. simpl.
      destruct (Hs d Hd) as (i' & E' & Hi').
      rewrite Er, E' in Ei. congruence.
    - rewrite lookup_insert_ne by exact Er. apply Hm, Hd. }
  destruct ch as [[|c cs]|].
  - eexists. split; [|apply Hkeep; [exact Hi|exact Hs]].
    subst n. cbn [calculateFinalLayout].
    erewrite bind_Some; [|reflexivity]. erewrite bind_Some; [|exact E].
    cbn in Hi. rewrite Hi.
    unfold bind, ret, nodes_push, nodeMap_set; simpl. reflexivity.
  - specialize (IH _ eq_refl).
    destruct (pass2_forEach _ IH T level) with (yo := yo) (cc := @nil Q) (s := s0)
      as (m' & E3 & Hm'); [|exact Hs|].
    { intros c' d Hc' Hd. apply HT. subst n. eapply preorder_child; eassumption. }
    eexists. split; [|apply Hkeep; [exact Hi|exact Hm']].
    subst n. cbn [calculateFinalLayout].
    erewrite bind_Some; [|reflexivity]. erewrite bind_Some; [|exact E].
    erewrite bind_Some.
    2:{ erewrite bind_Some; [|exact E3]. cbn [snd app].
        erewrite bind_Some; [|apply (index_head 0); discriminate].
        erewrite bind_Some; [|apply (index_last 0); discriminate].
        reflexivity. }
    unfold bind, ret, nodes_push, nodeMap_set. subst s0. cbn [nodes calls nodeMap].
    cbn [placed visited centerY]. rewrite <- !app_assoc. reflexivity.
  - eexists. split; [|apply Hkeep; [exact Hi|exact Hs]].
    subst n. cbn [calculateFinalLayout].
    erewrite bind_Some; [|reflexivity]. erewrite bind_Some; [|exact E].
    cbn in Hi. rewrite Hi.
    unfold bind, ret, nodes_push, nodeMap_set; simpl. reflexivity.
Qed.

(** ** Post-order and pre-order list the same nodes *)

Lemma concat_map_Permutation {A B} (f g : A -> list B) (l : list A) :
  Forall (fun a => f a ≡ₚ g a) l -> concat (map f l) ≡ₚ concat (map g l).
Proof.
  induction 1 as [|a l Ha _ IH]; simpl; [reflexivity|].
  rewrite Ha, IH. reflexivity.
Qed.

Lemma postorder_preorder n : postorder n ≡ₚ preorder n.
Proof.
  induction n as [r t ch IH] using tree_ind.
  destruct ch as [cs|]; simpl.
  - rewrite <- Permutation_cons_append. constructor.
    apply concat_map_Permutation, IH. reflexivity.
  - reflexivity.
Qed.

Lemma is_tree_postorder n : is_tree n -> NoDup (map ref (postorder n)).
Proof. unfold is_tree. rewrite postorder_preorder. auto. Qed.

(** ** After pass 1 the map holds every height *)

Lemma record_frame l r m :
  r ∉ map ref l -> fold_left record_height l m !! r = m !! r.
Proof.
  revert m. induction l as [|d l IH]; intros m Hr; simpl; [reflexivity|].
  rewrite IH.
  - unfold record_height. apply lookup_insert_ne. intros E. apply Hr. rewrite <- E. left.
  - intros H. apply Hr. right. exact H.
Qed.

Lemma record_lookup l :
  NoDup (map ref l) -> forall m d, d ∈ l ->
  fold_left record_height l m !! ref d = Some (mkInfo 0 (treeHeight d)).
Proof.
  induction l as [|d0 l IH]; intros Hnd m d Hd; [inversion Hd|].
  simpl in Hnd. apply NoDup_cons in Hnd as [Hd0 Hnd]. simpl.
  apply elem_of_cons in Hd as [->|Hd].
  - rewrite record_frame by exact Hd0. apply lookup_insert_eq.
  - apply IH; assumption.
Qed.

Lemma pass1_heights_ok n s :
  is_tree n -> heights_ok (preorder n) (nodeMap (set_heights (postorder n) s)).
Proof.
  intros Ht d Hd. eexists. split.
  - apply (record_lookup _ (is_tree_postorder n Ht)).
    rewrite postorder_preorder. exact Hd.
  - reflexivity.
Qed.

(** ** The effect as a whole *)

Lemma run_passes_spec n :
  is_tree n ->
  exists m,
    run_passes n = Some (treeHeight n, mkState (placed n 0 0) m (visited n 0 0))
    /\ heights_ok (preorder n) m.
Proof.
  intros Ht.
  destruct (calculateFinalLayout_spec n (preorder n) 0%nat 0
              (set_heights (postorder n) initial_state))
    as (m & E & Hm); [auto|apply pass1_heights_ok, Ht|].
  exists m. split; [|exact Hm].
  unfold run_passes.
  erewrite bind_Some; [|apply calculateInitialY_spec].
  erewrite bind_Some; [|exact E]. reflexivity.
Qed.

Lemma placed_nonempty n level yo : placed n level yo <> [].
Proof. destruct n as [r t ch]. simpl. intros H. apply app_eq_nil in H as [_ H]. discriminate. Qed.

Lemma computeLayout_spec n :
  is_tree n ->
  exists w,
    computeLayout n
    = Some (mkLayout (placed n 0 0) (make_links (placed n 0 0)) w (treeHeight n + 40)).
Proof.
  intros Ht. destruct (run_passes_spec n Ht) as (m & E & _).
  unfold computeLayout. rewrite E. cbn [nodes].
  destruct (map x (placed n 0 0)) as [|v rest] eqn:Ex.
  - apply map_eq_nil in Ex. destruct (placed_nonempty _ _ _ Ex).
  - simpl. eexists. reflexivity.
Qed.

(** ** Stacked children *)

Lemma stack_const {B} (f : MindMapNode -> Q -> B) (h : MindMapNode -> B) cs :
  Forall (fun c => forall o, f c o = h c) cs ->
  forall yo, stack f cs yo = map h cs.
Proof.
  induction 1 as [|c cs Hc _ IH]; intros yo; simpl; [reflexivity|].
  rewrite Hc, IH. reflexivity.
Qed.

Lemma stack_map {B C} (g : B -> C) (f : MindMapNode -> Q -> B) cs yo :
  map g (stack f cs yo) = stack (fun c o => g (f c o)) cs yo.
Proof.
  revert yo. induction cs as [|c cs IH]; intros yo; simpl; [reflexivity|].
  rewrite IH. reflexivity.
Qed.

Lemma stack_slots {B} (f : MindMapNode -> Q -> B) cs yo :
  stack f cs yo = map (fun p => f (fst p) (snd p)) (slots cs yo).
Proof.
  revert yo. induction cs as [|c cs IH]; intros yo; simpl; [reflexivity|].
  rewrite IH. reflexivity.
Qed.

Lemma slots_fst cs yo : map fst (slots cs yo) = cs.
Proof.
  revert yo. induction cs as [|c cs IH]; intros yo; simpl; [reflexivity|].
  rewrite IH. reflexivity.
Qed.

(** ** Order and number of the layout nodes *)

Lemma placed_nodes n : forall level yo, map node (placed n level yo) = postorder n.
Proof.
  induction n as [r t ch IH] using tree_ind. intros level yo.
  destruct ch as [cs|]; simpl; [|reflexivity].
  rewrite map_app, concat_map, stack_map. simpl. f_equal. f_equal.
  apply stack_const.
  eapply Forall_impl; [apply IH; reflexivity|]. simpl. auto.
Qed.

Lemma placed_depth n : forall k yo,
  map (fun a => (node a, level a)) (placed n k yo) = with_depth n k.
Proof.
  induction n as [r t ch IH] using tree_ind. intros k yo.
  destruct ch as [cs|]; simpl; [|reflexivity].
  rewrite map_app, concat_map, stack_map. simpl. f_equal. f_equal.
  apply stack_const.
  eapply Forall_impl; [apply IH; reflexivity|]. simpl. auto.
Qed.

Lemma placed_x n : forall k yo a,
  a ∈ placed n k yo -> x a = Qlevel (level a) * HORIZONTAL_SEPARATION.
Proof.
  induction n as [r t ch IH] using tree_ind. intros k yo a Ha.
  assert (Hself : forall v, a ∈ [mkLayoutNode (mkNode r t ch) (Qlevel k * HORIZONTAL_SEPARATION) v k] ->
                            x a = Qlevel (level a) * HORIZONTAL_SEPARATION).
  { intros v H. apply list_elem_of_singleton in H. subst a. reflexivity. }
  destruct ch as [cs|]; simpl in Ha.
  - apply elem_of_app in Ha as [Ha|Ha]; [|eapply Hself, Ha].
    specialize (IH _ eq_refl). rewrite stack_slots in Ha.
    apply list_elem_of_In, in_concat in Ha as (l & Hl & Hal).
    apply in_map_iff in Hl as ([c o] & <- & Hp).
    assert (Hc : c ∈ cs).
    { rewrite <- (slots_fst cs yo). apply list_elem_of_In, (in_map fst _ _ Hp). }
    rewrite Forall_forall in IH. eapply (IH c Hc). apply list_elem_of_In, Hal.
  - eapply Hself, Ha.
Qed.

Lemma countNodes_preorder n : countNodes n = length (preorder n).
Proof.
  induction n as [r t ch IH] using tree_ind.
  destruct ch as [cs|]; simpl; [|reflexivity].
  f_equal. rewrite length_concat, map_map. f_equal.
  specialize (IH _ eq_refl). induction IH as [|c cs Hc _ IHcs]; simpl; congruence.
Qed.

Lemma countNodes_postorder n : countNodes n = length (postorder n).
Proof. rewrite countNodes_preorder. symmetry. apply Permutation_length, postorder_preorder. Qed.

(** ** Parent-child pairs and links *)

Lemma find_node_unique ns :
  NoDup (map (fun a => ref (node a)) ns) ->
  forall a, a ∈ ns -> find_node ns (node a) = Some a.
Proof.
  induction ns as [|b ns IH]; intros Hnd a Ha; [inversion Ha|].
  simpl in Hnd. apply NoDup_cons in Hnd as [Hb Hnd].
  unfold find_node. simpl. unfold same_node at 1.
  apply elem_of_cons in Ha as [->|Ha].
  - rewrite bool_decide_eq_true_2 by reflexivity. reflexivity.
  - rewrite bool_decide_eq_false_2; [apply IH; assumption|].
    intros E. apply Hb. rewrite E.
    apply list_elem_of_In, (in_map (fun a => ref (node a))), list_elem_of_In, Ha.
Qed.

Lemma Forall2_flat_map {A B C} (R : B -> C -> Prop) (f : A -> list B) (g : A -> list C) l :
  (forall a, a ∈ l -> Forall2 R (f a) (g a)) ->
  Forall2 R (flat_map f l) (flat_map g l).
Proof.
  induction l as [|a l IH]; intros H; simpl; [constructor|].
  apply Forall2_app; [apply H; left|apply IH; intros b Hb; apply H; right; exact Hb].
Qed.

Lemma links_of_pairs ns src :
  NoDup (map (fun a => ref (node a)) ns) ->
  (forall c, c ∈ kids (node src) -> exists tgt, tgt ∈ ns /\ node tgt = c) ->
  Forall2 (link_for ns) (map (pair src) (kids (node src))) (links_of ns src).
Proof.
  intros Hnd Hk. unfold links_of, kids in *.
  destruct (children (node src)) as [cs|]; [|constructor].
  induction cs as [|c cs IH]; simpl; [constructor|].
  destruct (Hk c) as (tgt & Ht & <-); [left|].
  rewrite (find_node_unique ns Hnd tgt Ht). simpl. constructor.
  - exists tgt. auto.
  - apply IH. intros c' Hc'. apply Hk. right. exact Hc'.
Qed.

Lemma make_links_pairs ns :
  NoDup (map (fun a => ref (node a)) ns) ->
  (forall src c, src ∈ ns -> c ∈ kids (node src) -> exists tgt, tgt ∈ ns /\ node tgt = c) ->
  Forall2 (link_for ns) (child_pairs ns) (make_links ns).
Proof.
  intros Hnd Hk. apply Forall2_flat_map. intros src Hsrc.
  apply links_of_pairs; [exact Hnd|]. intros c Hc. apply (Hk src c Hsrc Hc).
Qed.

Lemma child_pairs_snd ns : map snd (child_pairs ns) = flat_map kids (map node ns).
Proof.
  unfold child_pairs. induction ns as [|a ns IH]; simpl; [reflexivity|].
  rewrite map_app, IH, map_map. simpl. rewrite map_id. reflexivity.
Qed.

Lemma flat_map_Permutation {A B} (f : A -> list B) l1 l2 :
  l1 ≡ₚ l2 -> flat_map f l1 ≡ₚ flat_map f l2.
Proof.
  induction 1; simpl.
  - reflexivity.
  - apply Permutation_app_head. assumption.
  - rewrite !app_assoc. apply Permutation_app_tail, Permutation_app_comm.
  - etransitivity; eassumption.
Qed.

(** Every node but the root is the child of exactly one node. *)
Lemma kids_postorder n : n :: flat_map kids (postorder n) ≡ₚ postorder n.
Proof.
  induction n as [r t ch IH] using tree_ind.
  destruct ch as [cs|]; [|reflexivity].
  specialize (IH _ eq_refl). cbn [postorder].
  rewrite flat_map_app. cbn [flat_map kids children]. rewrite app_nil_r.
  rewrite <- Permutation_cons_append. constructor.
  induction IH as [|c cs Hc _ IHcs]; simpl; [reflexivity|].
  rewrite flat_map_app.
  etransitivity; [|apply Permutation_app; [exact Hc|exact IHcs]].
  etransitivity; [symmetry; apply Permutation_middle|].
  simpl. constructor. rewrite <- !app_assoc. reflexivity.
Qed.

(** ** Heights are sums of leaf slots *)

(** Linear arithmetic over the layout constants; halving is a product. *)
Ltac qlra :=
  unfold NODE_WIDTH, NODE_HEIGHT, HORIZONTAL_SEPARATION, VERTICAL_SEPARATION, Qdiv in *;
  change (/ 2) with (1 # 2) in *;
  lra.

Lemma bottom_sum cs : forall yo, bottom cs yo == yo + Qsum (map treeHeight cs).
Proof.
  induction cs as [|c cs IH]; intros yo; unfold bottom in *; simpl.
  - lra.
  - rewrite IH. lra.
Qed.

Lemma treeHeight_internal r t c cs :
  treeHeight (mkNode r t (Some (c :: cs))) == Qsum (map treeHeight (c :: cs)).
Proof.
  change (treeHeight (mkNode r t (Some (c :: cs)))) with (bottom (c :: cs) 0).
  rewrite bottom_sum. lra.
Qed.

Lemma Qsum_nonneg l : Forall (fun v => 0 <= v) l -> 0 <= Qsum l.
Proof. induction 1 as [|v l Hv _ IH]; simpl; lra. Qed.

Lemma treeHeight_ge n : NODE_HEIGHT + VERTICAL_SEPARATION <= treeHeight n.
Proof.
  induction n as [r t ch IH] using tree_ind.
  destruct ch as [[|c cs]|]; [simpl; lra| |simpl; lra].
  specialize (IH _ eq_refl). rewrite treeHeight_internal.
  apply Forall_cons in IH as [Hc Hcs]. simpl.
  assert (0 <= Qsum (map treeHeight cs)); [|lra].
  apply Qsum_nonneg, Forall_map.
  eapply Forall_impl; [exact Hcs|]. unfold NODE_HEIGHT, VERTICAL_SEPARATION. simpl. intros; lra.
Qed.

Lemma bottom_internal r t c cs yo :
  bottom (c :: cs) yo == yo + treeHeight (mkNode r t (Some (c :: cs))).
Proof. rewrite treeHeight_internal, bottom_sum. reflexivity. Qed.

(** ** Bands *)

Lemma slots_band cs : forall yo c o,
  (c, o) ∈ slots cs yo -> c ∈ cs /\ yo <= o /\ o + treeHeight c <= bottom cs yo.
Proof.
  induction cs as [|c0 cs IH]; intros yo c o H; [inversion H|].
  simpl in H. apply elem_of_cons in H as [E|H].
  - injection E as -> ->. split; [left|]. split; [lra|].
    change (bottom (c0 :: cs) yo) with (bottom cs (yo + treeHeight c0)).
    rewrite bottom_sum.
    assert (0 <= Qsum (map treeHeight cs)); [|lra].
    apply Qsum_nonneg, Forall_map, Forall_forall. intros d _.
    pose proof (treeHeight_ge d). unfold NODE_HEIGHT, VERTICAL_SEPARATION in *. lra.
  - apply IH in H as (Hc & Hlo & Hhi). split; [right; exact Hc|].
    pose proof (treeHeight_ge c0). unfold NODE_HEIGHT, VERTICAL_SEPARATION in *.
    change (bottom (c0 :: cs) yo) with (bottom cs (yo + treeHeight c0)). split; lra.
Qed.

Lemma in_stack_concat {B} (f : MindMapNode -> Q -> list B) cs yo a :
  a ∈ concat (stack f cs yo) <-> exists c o, (c, o) ∈ slots cs yo /\ a ∈ f c o.
Proof.
  rewrite stack_slots, list_elem_of_In, in_concat. split.
  - intros (l & Hl & Ha). apply in_map_iff in Hl as ([c o] & <- & Hp).
    exists c, o. split; apply list_elem_of_In; assumption.
  - intros (c & o & Hp & Ha). exists (f c o). split; [|apply list_elem_of_In, Ha].
    apply in_map_iff. exists (c, o). split; [reflexivity|apply list_elem_of_In, Hp].
Qed.

Lemma in_stack {B} (f : MindMapNode -> Q -> B) cs yo v :
  v ∈ stack f cs yo <-> exists c o, (c, o) ∈ slots cs yo /\ v = f c o.
Proof.
  rewrite stack_slots, list_elem_of_In, in_map_iff. split.
  - intros ([c o] & <- & Hp). exists c, o. split; [apply list_elem_of_In, Hp|reflexivity].
  - intros (c & o & Hp & ->). exists (c, o). split; [reflexivity|apply list_elem_of_In, Hp].
Qed.

Lemma head_default_elem {A} (d : A) (l : list A) : l <> [] -> default d (head l) ∈ l.
Proof. destruct l; [congruence|]. intros _. left. Qed.

Lemma last_default_elem {A} (d : A) (l : list A) : l <> [] -> default d (last l) ∈ l.
Proof.
  intros Hl. destruct (last l) as [a|] eqn:E.
  - simpl. rewrite last_lookup in E. eapply list_elem_of_lookup_2, E.
  - apply last_None in E. congruence.
Qed.

(** The centre of a node lies inside its band, half a slot away from both ends. *)
Lemma centerY_band n : forall yo,
  yo + (NODE_HEIGHT + VERTICAL_SEPARATION) / 2 <= centerY n yo /\
  centerY n yo <= yo + treeHeight n - (NODE_HEIGHT + VERTICAL_SEPARATION) / 2.
Proof.
  induction n as [r t ch IH] using tree_ind. intros yo.
  destruct ch as [[|c cs]|];
    [cbn [centerY treeHeight]; qlra| |
     cbn [centerY treeHeight]; qlra].
  specialize (IH _ eq_refl). rewrite Forall_forall in IH.
  assert (Hin : forall v, v ∈ stack centerY (c :: cs) yo ->
                          yo + (NODE_HEIGHT + VERTICAL_SEPARATION) / 2 <= v /\
                          v <= yo + treeHeight (mkNode r t (Some (c :: cs)))
                               - (NODE_HEIGHT + VERTICAL_SEPARATION) / 2).
  { intros v Hv. apply in_stack in Hv as (c' & o & Hp & ->).
    apply slots_band in Hp as (Hc' & Hlo & Hhi).
    destruct (IH c' Hc' o) as [H1 H2].
    rewrite (bottom_internal r t) in Hhi. split; qlra. }
  cbn [centerY].
  assert (Hne : stack centerY (c :: cs) yo <> []) by discriminate.
  destruct (Hin _ (head_default_elem 0 _ Hne)) as [H1 H2].
  destruct (Hin _ (last_default_elem 0 _ Hne)) as [H3 H4].
  split; qlra.
Qed.

Lemma placed_band n : forall k yo a,
  a ∈ placed n k yo ->
  yo + (NODE_HEIGHT + VERTICAL_SEPARATION) / 2 <= y a /\
  y a <= yo + treeHeight n - (NODE_HEIGHT + VERTICAL_SEPARATION) / 2 /\
  (k <= level a)%nat.
Proof.
  induction n as [r t ch IH] using tree_ind. intros k yo a Ha.
  assert (Hself : a ∈ [mkLayoutNode (mkNode r t ch) (Qlevel k * HORIZONTAL_SEPARATION)
                                    (centerY (mkNode r t ch) yo) k] ->
          yo + (NODE_HEIGHT + VERTICAL_SEPARATION) / 2 <= y a /\
          y a <= yo + treeHeight (mkNode r t ch) - (NODE_HEIGHT + VERTICAL_SEPARATION) / 2 /\
          (k <= level a)%nat).
  { intros H. apply list_elem_of_singleton in H. subst a. cbn [y level].
    destruct (centerY_band (mkNode r t ch) yo). auto. }
  destruct ch as [[|c cs]|]; [apply Hself, Ha| |apply Hself, Ha].
  cbn [placed] in Ha. apply elem_of_app in Ha as [Ha|Ha]; [|apply Hself, Ha].
  specialize (IH _ eq_refl). rewrite Forall_forall in IH.
  apply in_stack_concat in Ha as (c' & o & Hp & Ha).
  apply slots_band in Hp as (Hc' & Hlo & Hhi).
  destruct (IH c' Hc' _ _ _ Ha) as (H1 & H2 & H3).
  rewrite (bottom_internal r t) in Hhi. split; [qlra|]. split; [qlra|lia].
Qed.

(** ** Boxes *)

Lemma apart_sym a b : apart a b -> apart b a.
Proof. unfold apart, boxes_intersect. tauto. Qed.

Lemma FOP_app {A} (R : A -> A -> Prop) l1 l2 :
  ForallOrdPairs R l1 -> ForallOrdPairs R l2 ->
  (forall a b, a ∈ l1 -> b ∈ l2 -> R a b) ->
  ForallOrdPairs R (l1 ++ l2).
Proof.
  induction 1 as [|a l1 Ha H1 IH]; intros H2 Hx; simpl; [exact H2|].
  constructor.
  - apply Forall_app. split; [exact Ha|].
    apply Forall_forall. intros b Hb. apply Hx; [left|exact Hb].
  - apply IH; [exact H2|]. intros a' b Ha' Hb. apply Hx; [right; exact Ha'|exact Hb].
Qed.

Lemma FOP_lookup {A} (R : A -> A -> Prop) l :
  ForallOrdPairs R l ->
  forall i j a b, (i < j)%nat -> l !! i = Some a -> l !! j = Some b -> R a b.
Proof.
  induction 1 as [|a0 l Ha0 _ IH]; intros i j a b Hij Hi Hj; [inversion Hi|].
  destruct j as [|j]; [lia|]. simpl in Hj. destruct i as [|i].
  - injection Hi as <-. rewrite Forall_forall in Ha0.
    eapply Ha0, list_elem_of_lookup_2, Hj.
  - simpl in Hi. apply (IH i j); [lia|assumption..].
Qed.

Lemma Qlevel_gap i j : (S i <= j)%nat -> Qlevel i + 1 <= Qlevel j.
Proof.
  intros H. unfold Qlevel. change 1 with (inject_Z 1).
  rewrite <- inject_Z_plus, <- Zle_Qle. lia.
Qed.

Lemma stack_apart cs :
  Forall (fun c => forall k yo, ForallOrdPairs apart (placed c k yo)) cs ->
  forall k yo, ForallOrdPairs apart (concat (stack (fun c o => placed c k o) cs yo)).
Proof.
  induction 1 as [|c cs Hc _ IH]; intros k yo; simpl; [constructor|].
  apply FOP_app; [apply Hc|apply IH|].
  intros a b Ha Hb.
  apply placed_band in Ha as (_ & Ha & _).
  apply in_stack_concat in Hb as (c' & o & Hp & Hb).
  apply slots_band in Hp as (_ & Hlo & _).
  apply placed_band in Hb as (Hb & _ & _).
  unfold apart, boxes_intersect, box_top, box_bottom. intros (_ & _ & _ & H). qlra.
Qed.

Lemma placed_apart n : forall k yo, ForallOrdPairs apart (placed n k yo).
Proof.
  induction n as [r t ch IH] using tree_ind. intros k yo.
  destruct ch as [cs|]; cbn [placed]; [|repeat constructor].
  apply FOP_app; [|repeat constructor|].
  - apply stack_apart. eapply Forall_impl; [apply IH; reflexivity|]. simpl. auto.
  - intros a b Ha Hb. apply list_elem_of_singleton in Hb. subst b.
    assert (Hin : a ∈ placed (mkNode r t (Some cs)) k yo).
    { cbn [placed]. apply elem_of_app. left. exact Ha. }
    apply placed_x in Hin.
    apply in_stack_concat in Ha as (c' & o & _ & Ha).
    apply placed_band in Ha as (_ & _ & Hl). apply Qlevel_gap in Hl.
    unfold apart, boxes_intersect, box_left, box_right. cbn [x].
    rewrite Hin. intros (H & _). qlra.
Qed.

(** Layout nodes drawn at the same point are the same layout node. *)
Lemma placed_same_point n k yo a b :
  a ∈ placed n k yo -> b ∈ placed n k yo -> x a == x b -> y a == y b -> a = b.
Proof.
  intros Ha Hb Hx Hy.
  destruct (ForallOrdPairs_In (placed_apart n k yo) a b) as [E|[H|H]];
    [apply list_elem_of_In, Ha|apply list_elem_of_In, Hb|exact E| |];
    exfalso; apply H; unfold boxes_intersect, box_left, box_right, box_top, box_bottom;
    repeat split; qlra.
Qed.

(** ** First, last and consecutive children *)

Lemma slots_head cs yo c1 : head cs = Some c1 -> (c1, yo) ∈ slots cs yo.
Proof. destruct cs; intros H; [discriminate|]. injection H as ->. left. Qed.

Lemma stack_head {B} (f : MindMapNode -> Q -> B) cs yo c1 :
  head cs = Some c1 -> head (stack f cs yo) = Some (f c1 yo).
Proof. destruct cs; intros H; [discriminate|]. injection H as ->. reflexivity. Qed.

Lemma stack_last {B} (f : MindMapNode -> Q -> B) cs : forall yo ck,
  last cs = Some ck ->
  exists ok, (ck, ok) ∈ slots cs yo /\ last (stack f cs yo) = Some (f ck ok).
Proof.
  induction cs as [|c cs IH]; intros yo ck H; [discriminate|].
  destruct cs as [|c' cs].
  - injection H as ->. exists yo. split; [left|reflexivity].
  - destruct (IH (yo + treeHeight c) ck H) as (ok & Hin & Hl).
    exists ok. split; [right; exact Hin|exact Hl].
Qed.

Lemma slots_lookup cs : forall yo i c,
  cs !! i = Some c -> exists o, slots cs yo !! i = Some (c, o).
Proof.
  induction cs as [|c0 cs IH]; intros yo i c H; [destruct i; discriminate|].
  destruct i as [|i]; [injection H as ->; eexists; reflexivity|].
  apply (IH (yo + treeHeight c0)) in H. exact H.
Qed.

Lemma slots_next cs : forall yo i c o p,
  slots cs yo !! i = Some (c, o) -> slots cs yo !! S i = Some p ->
  snd p = o + treeHeight c.
Proof.
  induction cs as [|c0 cs IH]; intros yo i c o p Hi Hj; [destruct i; discriminate|].
  destruct i as [|i].
  - injection Hi as -> ->. destruct cs; [discriminate|]. injection Hj as <-. reflexivity.
  - eapply (IH (yo + treeHeight c0) i); eassumption.
Qed.

Lemma slots_ordered cs : forall yo i j ci oi cj oj,
  (i < j)%nat ->
  slots cs yo !! i = Some (ci, oi) -> slots cs yo !! j = Some (cj, oj) ->
  oi + treeHeight ci <= oj.
Proof.
  induction cs as [|c0 cs IH]; intros yo i j ci oi cj oj Hij Hi Hj;
    [destruct i; discriminate|].
  destruct j as [|j]; [lia|]. simpl in Hj. destruct i as [|i].
  - injection Hi as -> ->.
    apply list_elem_of_lookup_2, slots_band in Hj as (_ & H & _). exact H.
  - simpl in Hi. apply (IH (yo + treeHeight c0) i j ci oi cj oj); [lia|assumption..].
Qed.

(** ** Roots of the closed forms *)

Lemma placed_root n k yo :
  mkLayoutNode n (Qlevel k * HORIZONTAL_SEPARATION) (centerY n yo) k ∈ placed n k yo.
Proof. destruct n as [r t ch]. cbn [placed]. apply elem_of_app. right. left. Qed.

Lemma visited_root n k yo : mkCall n k yo ∈ visited n k yo.
Proof. destruct n as [r t ch]. left. Qed.

Lemma visited_nodes n : forall k yo, map arg_node (visited n k yo) = preorder n.
Proof.
  induction n as [r t ch IH] using tree_ind. intros k yo.
  destruct ch as [cs|]; simpl; [|reflexivity].
  rewrite concat_map, stack_map. f_equal. f_equal.
  apply stack_const.
  eapply Forall_impl; [apply IH; reflexivity|]. simpl. auto.
Qed.

(** ** A parent and its children *)

Lemma placed_midpoint n : forall k yo a cs c1 ck,
  a ∈ placed n k yo -> children (node a) = Some cs ->
  head cs = Some c1 -> last cs = Some ck ->
  exists l1 lk,
    l1 ∈ placed n k yo /\ lk ∈ placed n k yo /\ node l1 = c1 /\ node lk = ck /\
    y a = (y l1 + y lk) / 2.
Proof.
  induction n as [r t ch IH] using tree_ind. intros k yo a cs c1 ck Ha Hcs H1 Hk.
  assert (Hsub : forall c o b, ch = Some cs -> (c, o) ∈ slots cs yo ->
                   b ∈ placed c (S k) o -> b ∈ placed (mkNode r t ch) k yo).
  { intros c o b -> Hp Hb. cbn [placed]. apply elem_of_app. left.
    apply in_stack_concat. eauto. }
  assert (Hself : a ∈ [mkLayoutNode (mkNode r t ch) (Qlevel k * HORIZONTAL_SEPARATION)
                                    (centerY (mkNode r t ch) yo) k] ->
          exists l1 lk,
            l1 ∈ placed (mkNode r t ch) k yo /\ lk ∈ placed (mkNode r t ch) k yo /\
            node l1 = c1 /\ node lk = ck /\ y a = (y l1 + y lk) / 2).
  { intros H. apply list_elem_of_singleton in H. subst a. cbn [node children] in Hcs. subst ch.
    destruct (stack_last centerY cs yo ck Hk) as (ok & Hok & Hl).
    exists (mkLayoutNode c1 (Qlevel (S k) * HORIZONTAL_SEPARATION) (centerY c1 yo) (S k)),
           (mkLayoutNode ck (Qlevel (S k) * HORIZONTAL_SEPARATION) (centerY ck ok) (S k)).
    split; [eapply Hsub; [reflexivity|apply slots_head, H1|apply placed_root]|].
    split; [eapply Hsub; [reflexivity|exact Hok|apply placed_root]|].
    split; [reflexivity|]. split; [reflexivity|].
    cbn [y]. destruct cs as [|c cs']; [discriminate|]. cbn [centerY].
    rewrite (stack_head centerY _ yo c1 H1), Hl. reflexivity. }
  destruct ch as [cs'|]; cbn [placed] in Ha; [|apply Hself, Ha].
  apply elem_of_app in Ha as [Ha|Ha]; [|apply Hself, Ha].
  specialize (IH _ eq_refl). rewrite Forall_forall in IH.
  apply in_stack_concat in Ha as (c & o & Hp & Ha).
  pose proof Hp as Hc. apply slots_band in Hc as (Hc & _).
  destruct (IH c Hc (S k) o a cs c1 ck Ha Hcs H1 Hk) as (l1 & lk & Hl1 & Hlk & E).
  exists l1, lk. split; [|split; [|exact E]].
  - cbn [placed]. apply elem_of_app. left. apply in_stack_concat. eauto.
  - cbn [placed]. apply elem_of_app. left. apply in_stack_concat. eauto.
Qed.

Lemma visited_children n : forall k yo p cs c o,
  p ∈ visited n k yo -> children (arg_node p) = Some cs ->
  (c, o) ∈ slots cs (arg_yOffset p) ->
  mkCall c (S (arg_level p)) o ∈ visited n k yo.
Proof.
  induction n as [r t ch IH] using tree_ind. intros k yo p cs c o Hp Hcs Hs.
  cbn [visited] in Hp. apply elem_of_cons in Hp as [->|Hp].
  - cbn [arg_node arg_level arg_yOffset children] in *. subst ch.
    cbn [visited]. right. apply in_stack_concat. exists c, o.
    split; [exact Hs|apply visited_root].
  - destruct ch as [cs'|]; [|inversion Hp].
    specialize (IH _ eq_refl). rewrite Forall_forall in IH.
    apply in_stack_concat in Hp as (c' & o' & Hp' & Hp).
    pose proof Hp' as Hc. apply slots_band in Hc as (Hc & _).
    cbn [visited]. right. apply in_stack_concat. exists c', o'.
    split; [exact Hp'|]. eapply IH; eassumption.
Qed.

(** ** Each node is laid out once *)

Lemma NoDup_map_eq {A B} (f : A -> B) (l : list A) a b :
  NoDup (map f l) -> a ∈ l -> b ∈ l -> f a = f b -> a = b.
Proof.
  induction l as [|c l IH]; intros Hnd Ha Hb E; [inversion Ha|].
  simpl in Hnd. apply NoDup_cons in Hnd as [Hc Hnd].
  assert (Hin : forall d, d ∈ l -> f d ∈ map f l).
  { intros d Hd. apply list_elem_of_In, in_map, list_elem_of_In, Hd. }
  apply elem_of_cons in Ha as [->|Ha]; apply elem_of_cons in Hb as [->|Hb].
  - reflexivity.
  - destruct Hc. rewrite E. apply Hin, Hb.
  - destruct Hc. rewrite <- E. apply Hin, Ha.
  - apply IH; assumption.
Qed.

Lemma placed_refs_NoDup n k yo :
  is_tree n -> NoDup (map (fun a => ref (node a)) (placed n k yo)).
Proof.
  intros Ht. rewrite <- (map_map node ref), placed_nodes. apply is_tree_postorder, Ht.
Qed.

Lemma visited_refs_NoDup n k yo :
  is_tree n -> NoDup (map (fun p => ref (arg_node p)) (visited n k yo)).
Proof. intros Ht. rewrite <- (map_map arg_node ref), visited_nodes. exact Ht. Qed.

Lemma placed_of_node n k yo d :
  d ∈ preorder n -> exists a, a ∈ placed n k yo /\ node a = d.
Proof.
  intros Hd. rewrite <- postorder_preorder, <- (placed_nodes n k yo) in Hd.
  apply list_elem_of_In, in_map_iff in Hd as (a & E & Ha).
  exists a. split; [apply list_elem_of_In, Ha|exact E].
Qed.

Lemma node_of_placed n k yo a : a ∈ placed n k yo -> node a ∈ preorder n.
Proof.
  intros Ha. rewrite <- postorder_preorder, <- (placed_nodes n k yo).
  apply list_elem_of_In, in_map, list_elem_of_In, Ha.
Qed.

Lemma kids_in_tree n d c : d ∈ preorder n -> c ∈ kids d -> c ∈ preorder n.
Proof.
  intros Hd Hc. rewrite <- postorder_preorder, <- kids_postorder. right.
  apply list_elem_of_In, in_flat_map. exists d. split; apply list_elem_of_In; [|exact Hc].
  rewrite postorder_preorder. exact Hd.
Qed.

Lemma links_structure n k yo :
  is_tree n ->
  Forall2 (link_for (placed n k yo)) (child_pairs (placed n k yo)) (make_links (placed n k yo)).
Proof.
  intros Ht. apply make_links_pairs; [apply placed_refs_NoDup, Ht|].
  intros src c Hsrc Hc. apply placed_of_node.
  eapply kids_in_tree; [eapply node_of_placed, Hsrc|exact Hc].
Qed.

Lemma child_pairs_length n k yo :
  S (length (child_pairs (placed n k yo))) = countNodes n.
Proof.
  rewrite <- (length_map snd), child_pairs_snd, placed_nodes, countNodes_postorder.
  apply (Permutation_length (kids_postorder n)).
Qed.

(** ** Heights count leaves *)

Lemma Qsum_leaves (h : MindMapNode -> Q) (lc : MindMapNode -> nat) l :
  Forall (fun c => h c == inject_Z (Z.of_nat (lc c)) * slot) l ->
  Qsum (map h l) == inject_Z (Z.of_nat (list_sum (map lc l))) * slot.
Proof.
  induction 1 as [|c l Hc _ IH]; [reflexivity|].
  cbn [map].
  change (Qsum (h c :: map h l)) with (h c + Qsum (map h l)).
  change (list_sum (lc c :: map lc l)) with (lc c + list_sum (map lc l))%nat.
  rewrite Hc, IH, Nat2Z.inj_add, inject_Z_plus. ring.
Qed.

Lemma treeHeight_leaves n : treeHeight n == inject_Z (Z.of_nat (leafCount n)) * slot.
Proof.
  induction n as [r t ch IH] using tree_ind.
  destruct ch as [[|c cs]|]; [reflexivity| |reflexivity].
  rewrite treeHeight_internal. apply (Qsum_leaves treeHeight leafCount), IH. reflexivity.
Qed.

(** ** Pass 1 against the specification's formula *)

Lemma Qsum_ext (f g : MindMapNode -> Q) l :
  Forall (fun c => f c == g c) l -> Qsum (map f l) == Qsum (map g l).
Proof.
  induction 1 as [|c l Hc _ IH]; [reflexivity|].
  cbn [map].
  change (Qsum (f c :: map f l)) with (f c + Qsum (map f l)).
  change (Qsum (g c :: map g l)) with (g c + Qsum (map g l)).
  rewrite Hc, IH. reflexivity.
Qed.

Lemma treeHeight_spec n : treeHeight n == spec_subtreeHeight n.
Proof.
  induction n as [r t ch IH] using tree_ind.
  destruct ch as [[|c cs]|]; [reflexivity| |reflexivity].
  rewrite treeHeight_internal. apply (Qsum_ext treeHeight spec_subtreeHeight), IH. reflexivity.
Qed.

Lemma set_heights_self n s :
  nodeMap (set_heights (postorder n) s) !! ref n = Some (mkInfo 0 (treeHeight n)).
Proof.
  destruct n as [r t ch]. cbn [postorder]. rewrite set_heights_app.
  unfold set_heights at 1. cbn [nodeMap fold_left]. apply lookup_insert_eq.
Qed.

(** ** Depths *)

Lemma with_depth_root n k : (n, k) ∈ with_depth n k.
Proof. destruct n as [r t ch]. cbn [with_depth]. apply elem_of_app. right. left. Qed.

(** ** Bands of siblings *)

Lemma visited_stacked T m p cs :
  is_tree T -> heights_ok (preorder T) m ->
  p ∈ visited T 0 0 -> children (arg_node p) = Some cs ->
  children_stacked (mkState (placed T 0 0) m (visited T 0 0)) p cs.
Proof.
  intros Ht Hm Hp Hcs. unfold children_stacked. cbn [calls nodeMap].
  assert (Hpin : arg_node p ∈ preorder T).
  { rewrite <- (visited_nodes T 0 0). apply list_elem_of_In, in_map, list_elem_of_In, Hp. }
  assert (Hkid : forall c, c ∈ cs -> c ∈ preorder T).
  { intros c Hc. apply (kids_in_tree T (arg_node p)); [exact Hpin|].
    unfold kids. rewrite Hcs. exact Hc. }
  assert (Hcall : forall i c o, slots cs (arg_yOffset p) !! i = Some (c, o) ->
                    mkCall c (S (arg_level p)) o ∈ visited T 0 0).
  { intros i c o H. eapply visited_children; [exact Hp|exact Hcs|].
    eapply list_elem_of_lookup_2, H. }
  assert (Hthe : forall i c q, cs !! i = Some c -> q ∈ visited T 0 0 -> arg_node q = c ->
                   slots cs (arg_yOffset p) !! i = Some (c, arg_yOffset q)).
  { intros i c q Hi Hq Hn.
    destruct (slots_lookup cs (arg_yOffset p) i c Hi) as (o & Ho).
    rewrite Ho. f_equal. f_equal.
    assert (Eq : q = mkCall c (S (arg_level p)) o); [|rewrite Eq; reflexivity].
    apply (NoDup_map_eq (fun p => ref (arg_node p)) (visited T 0 0));
      [apply visited_refs_NoDup, Ht|exact Hq|eapply Hcall, Ho|]. simpl. congruence. }
  assert (Hh : forall c info, c ∈ cs -> m !! ref c = Some info -> subtreeHeight info = treeHeight c).
  { intros c info Hc E. destruct (Hm c (Hkid c Hc)) as (i' & E' & Hi'). congruence. }
  split; [|split; [|split]].
  - intros c Hc. apply (Hcall 0%nat). destruct cs; [discriminate|].
    injection Hc as ->. reflexivity.
  - intros c Hc. pose proof Hc as Hi. apply list_elem_of_lookup_1 in Hi as (i & Hi).
    destruct (slots_lookup cs (arg_yOffset p) i c Hi) as (o & Ho).
    destruct (Hm c (Hkid c Hc)) as (info & E & _).
    exists o, info. split; [eapply Hcall, Ho|exact E].
  - intros i ci cj pi pj info Hi Hj Hpi Ni Hpj Nj E.
    pose proof (Hthe i ci pi Hi Hpi Ni) as Si.
    pose proof (Hthe (S i) cj pj Hj Hpj Nj) as Sj.
    rewrite (Hh ci info (list_elem_of_lookup_2 _ _ _ Hi) E).
    exact (slots_next cs _ i ci _ _ Si Sj).
  - intros i j ci cj pi pj ii ij q Hij Hi Hj Hpi Ni Hpj Nj Ei Ej.
    pose proof (Hthe i ci pi Hi Hpi Ni) as Si.
    pose proof (Hthe j cj pj Hj Hpj Nj) as Sj.
    rewrite (Hh ci ii (list_elem_of_lookup_2 _ _ _ Hi) Ei).
    rewrite (Hh cj ij (list_elem_of_lookup_2 _ _ _ Hj) Ej).
    unfold in_band. intros [[A1 A2] [B1 B2]].
    destruct (Nat.lt_total i j) as [H|[H|H]]; [|contradiction|].
    + pose proof (slots_ordered cs _ i j _ _ _ _ H Si Sj). lra.
    + pose proof (slots_ordered cs _ j i _ _ _ _ H Sj Si). lra.
Qed.

(** ** Positions in the link list *)

Lemma map_lookup {A B} (f : A -> B) (l : list A) i a :
  l !! i = Some a -> map f l !! i = Some (f a).
Proof.
  revert i. induction l as [|b l IH]; intros [|i] H; try discriminate.
  - injection H as ->. reflexivity.
  - simpl. apply IH, H.
Qed.

Lemma child_refs_NoDup n k yo :
  is_tree n -> NoDup (map (fun p => ref (snd p)) (child_pairs (placed n k yo))).
Proof.
  intros Ht. rewrite <- (map_map snd ref), child_pairs_snd, placed_nodes.
  pose proof (is_tree_postorder n Ht) as H.
  rewrite <- kids_postorder in H. simpl in H. apply NoDup_cons in H as [_ H]. exact H.
Qed.

(** ** The sample tree *)

Lemma sample_is_tree : is_tree sample_tree.
Proof. apply (@bool_decide_unpack (is_tree sample_tree) _). vm_compute. exact I. Defined.

(** ** Pass 1 on run-time values *)

Section JsInd.
Variable P : JsNode -> Prop.
Hypothesis Hnull : P JsNull.
Hypothesis Hobj : forall r t ch,
    (forall cs, ch = Some cs -> Forall P cs) -> P (JsObject r t ch).

Lemma js_ind (v : JsNode) : P v.
Proof.
  revert v. fix IH 1. intros [|r t ch]; [exact Hnull|]. apply Hobj.
  destruct ch as [l|]; intros cs E; [|discriminate].
  injection E as <-. induction l as [|c l IHl]; constructor; [apply IH | exact IHl].
Qed.

End JsInd.

Lemma jbind_Normal {A B} (m : J A) (k : A -> J B) s a s' :
  m s = Normal a s' -> jbind m k s = k a s'.
Proof. unfold jbind. intros ->. reflexivity. Qed.

Lemma as_tree_of_tree n : as_tree (of_tree n) = Some n.
Proof.
  induction n as [r t ch IH] using tree_ind.
  destruct ch as [cs|]; [|reflexivity]. specialize (IH _ eq_refl).
  cbn [of_tree option_map as_tree].
  assert (E : (fix all (l : list JsNode) : option (list MindMapNode) :=
                 match l with
                 | [] => Some []
                 | c :: rest =>
                     match as_tree c, all rest with
                     | Some c', Some rest' => Some (c' :: rest')
                     | _, _ => None
                     end
                 end) (map of_tree cs) = Some cs).
  { induction IH as [|c cs Hc _ IHcs]; [reflexivity|]. cbn [map]. rewrite Hc, IHcs. reflexivity. }
  rewrite E. reflexivity.
Qed.

(** On an object tree the run-time pass 1 is [calculateInitialY]. *)
Lemma calculateInitialY_js_of_tree n : forall s log,
  calculateInitialY_js (of_tree n) (mkP1 s log)
  = Normal (treeHeight n)
           (mkP1 (set_heights (postorder n) s) (log ++ map of_tree (preorder n))).
Proof.
  induction n as [r t ch IH] using tree_ind. intros s log.
  assert (Hloop : forall cs, Forall (fun c => forall s log,
                     calculateInitialY_js (of_tree c) (mkP1 s log)
                     = Normal (treeHeight c)
                              (mkP1 (set_heights (postorder c) s)
                                    (log ++ map of_tree (preorder c)))) cs ->
            forall acc s log,
              jforEach (fun child subtreeHeight =>
                          jbind (calculateInitialY_js child) (fun h =>
                          jret (subtreeHeight + h))) (map of_tree cs) acc (mkP1 s log)
              = Normal (bottom cs acc)
                       (mkP1 (set_heights (concat (map postorder cs)) s)
                             (log ++ map of_tree (concat (map preorder cs))))).
  { induction 1 as [|c cs Hc _ IHcs]; intros acc s0 log0.
    - cbn. rewrite set_heights_nil, app_nil_r. reflexivity.
    - cbn [map jforEach concat bottom fold_left].
      erewrite jbind_Normal; [|erewrite jbind_Normal; [reflexivity|apply Hc]].
      rewrite IHcs, set_heights_app, map_app, app_assoc. reflexivity. }
  destruct ch as [[|c cs]|].
  - cbn. unfold set_heights. cbn. reflexivity.
  - specialize (IH _ eq_refl). specialize (Hloop _ IH).
    cbn [of_tree option_map calculateInitialY_js]. cbn [map] in Hloop |- *.
    unfold jbind at 1. cbn [enter_pass1 p1_vars p1_entered].
    erewrite jbind_Normal; [|apply Hloop].
    cbn [jbind jnodeMap_set jret p1_vars p1_entered nodes nodeMap calls set_heights].
    cbn [postorder preorder treeHeight]. rewrite set_heights_app.
    unfold jbind, jnodeMap_set, jret, set_heights.
    cbn [p1_vars p1_entered nodes nodeMap calls fold_left ref map].
    rewrite <- app_assoc. reflexivity.
  - cbn. unfold set_heights. cbn. reflexivity.
Qed.

Lemma pass1_throws_on_null v :
  has_null v = true -> forall s, exists s', calculateInitialY_js v s = Abrupt TypeError s'.
Proof.
  induction v as [|r t ch IH] using js_ind; intros Hn s.
  - eexists. reflexivity.
  - destruct ch as [cs|]; [|discriminate]. specialize (IH _ eq_refl).
    cbn [has_null] in Hn.
    assert (Hloop : forall acc s0, exists s',
               jforEach (fun child subtreeHeight =>
                           jbind (calculateInitialY_js child) (fun h =>
                           jret (subtreeHeight + h))) cs acc s0
               = Abrupt TypeError s').
    { clear s. induction IH as [|c cs Hc _ IHcs]; intros acc s0; [discriminate|].
      cbn [existsb] in Hn. cbn [jforEach]. unfold jbind at 1 2.
      destruct (calculateInitialY_js c s0) as [h s1|[] s1] eqn:Ec.
      - destruct (has_null c) eqn:Hc'.
        + destruct (Hc eq_refl s0) as (s' & E'). congruence.
        + cbn [jret]. apply IHcs, Hn.
      - eexists. reflexivity. }
    destruct cs as [|c cs]; [discriminate|].
    cbn [calculateInitialY_js]. unfold jbind at 1. cbn [enter_pass1].
    destruct (Hloop 0 (mkP1 (p1_vars s) (p1_entered s ++ [JsObject r t (Some (c :: cs))])))
      as (s' & E').
    unfold jbind at 1. rewrite E'. eexists. reflexivity.
Qed.

Lemma no_null_is_tree v : has_null v = false -> exists n, v = of_tree n.
Proof.
  induction v as [|r t ch IH] using js_ind; intros Hn; [discriminate|].
  destruct ch as [cs|]; [|exists (mkNode r t None); reflexivity].
  specialize (IH _ eq_refl). cbn [has_null] in Hn.
  assert (Hcs : exists ns, cs = map of_tree ns).
  { induction IH as [|c cs Hc _ IHcs]; [exists []; reflexivity|].
    cbn [existsb] in Hn. apply orb_false_iff in Hn as [Hc' Hr].
    destruct (Hc Hc') as (n & ->). destruct (IHcs Hr) as (ns & ->).
    exists (n :: ns). reflexivity. }
  destruct Hcs as (ns & ->). exists (mkNode r t (Some ns)). reflexivity.
Qed.

(** When pass 1 returns, its argument was an object tree. *)
Lemma pass1_returns_objects v s h s' :
  calculateInitialY_js v s = Normal h s' -> exists n, v = of_tree n /\ as_tree v = Some n.
Proof.
  intros E. destruct (has_null v) eqn:Hn.
  - destruct (pass1_throws_on_null v Hn s) as (s1 & E1). congruence.
  - destruct (no_null_is_tree v Hn) as (n & ->). exists n.
    split; [reflexivity|apply as_tree_of_tree].
Qed.

(** On an object tree the effect is [computeLayout]. *)
Lemma useEffect_body_of_tree n :
  useEffect_body (of_tree n)
  = match computeLayout n with
    | Some l => Effect_setLayout l
    | None => Effect_assertion_violated
    end.
Proof.
  unfold useEffect_body. rewrite calculateInitialY_js_of_tree, as_tree_of_tree. reflexivity.
Qed.

(** ** The layouts of the sample trees *)

Example layout_single_node :
  option_map (fun L => (map summary (lay_nodes L), lay_links L, Qred (width L), Qred (height L)))
             (computeLayout (leaf 1))
  = Some ([(1%positive, 0, 50, 0%nat)], [], 220, 140).
Proof. vm_compute. reflexivity. Qed.

Example layout_fan3 :
  option_map (fun L => (map summary (lay_nodes L), map link_summary (lay_links L)))
             (computeLayout fan3)
  = Some ([(2%positive, 220, 50, 1%nat); (3%positive, 220, 150, 1%nat);
           (4%positive, 220, 250, 1%nat); (1%positive, 0, 150, 0%nat)],
          [((180, 150), (220, 50)); ((180, 150), (220, 150)); ((180, 150), (220, 250))]).
Proof. vm_compute. reflexivity. Qed.

Example layout_sample_tree :
  option_map (fun L => (map summary (lay_nodes L), Qred (width L), Qred (height L)))
             (computeLayout sample_tree)
  = Some ([(2%positive, 220, 50, 1%nat); (4%positive, 440, 150, 2%nat);
           (5%positive, 440, 250, 2%nat); (6%positive, 440, 350, 2%nat);
           (3%positive, 220, 250, 1%nat); (1%positive, 0, 150, 0%nat)],
          660, 440).
Proof. vm_compute. reflexivity. Qed.

Example calls_sample_tree :
  option_map (fun r => map (fun p => (ref (arg_node p), arg_level p, Qred (arg_yOffset p)))
                           (calls (snd r)))
             (run_passes sample_tree)
  = Some [(1%positive, 0%nat, 0); (2%positive, 1%nat, 0); (3%positive, 1%nat, 100);
          (4%positive, 2%nat, 100); (5%positive, 2%nat, 200); (6%positive, 2%nat, 300)].
Proof. vm_compute. reflexivity. Qed.

(** * The claims *)

(** C1, as the code has it: for every input tree the layout is produced and
    its node list is the post-order traversal of the tree: each child's
    subtree in the children's given order, then the node itself, the root
    last.  A node is pushed on line 104, after the loop over its children. *)
Theorem C1_nodes_in_postorder (T : MindMapNode) :
  is_tree T ->
  exists L, computeLayout T = Some L /\ map node (lay_nodes L) = postorder T.
Proof.
  intros Ht. destruct (computeLayout_spec T Ht) as (w & E).
  eexists. split; [exact E|]. apply placed_nodes.
Qed.

Lemma C1_nodes_in_postorder_witness :
  is_tree sample_tree /\
  exists L, computeLayout sample_tree = Some L /\
            map node (lay_nodes L) = postorder sample_tree.
Proof. split; [exact sample_is_tree|apply (C1_nodes_in_postorder sample_tree), sample_is_tree]. Defined.

(** C1 as stated fails: for a root with a single child the node list is
    [child; root], while the pre-order traversal is [root; child]. *)
Lemma C1_preorder_counterexample :
  is_tree chain2 /\
  exists L, computeLayout chain2 = Some L /\
            map node (lay_nodes L) = [leaf 2; chain2] /\
            preorder chain2 = [chain2; leaf 2] /\
            map node (lay_nodes L) <> preorder chain2.
Proof.
  split; [apply (@bool_decide_unpack (is_tree chain2) _); vm_compute; exact I|].
  eexists. split; [vm_compute; reflexivity|].
  split; [reflexivity|]. split; [reflexivity|]. discriminate.
Qed.

(** C2: for every input tree the layout has one layout node per node of the
    tree and one link per parent-child pair: [nodes.length] is the node
    count, [links.length] is the node count minus one, and the nodes laid
    out are exactly the nodes of the tree. *)
Theorem C2_one_node_and_one_link_each (T : MindMapNode) :
  is_tree T ->
  exists L,
    computeLayout T = Some L /\
    length (lay_nodes L) = countNodes T /\
    length (lay_links L) = (countNodes T - 1)%nat /\
    map node (lay_nodes L) ≡ₚ preorder T.
Proof.
  intros Ht. destruct (computeLayout_spec T Ht) as (w & E).
  eexists. split; [exact E|]. cbn [lay_nodes lay_links]. split; [|split].
  - rewrite <- (length_map node), placed_nodes. symmetry. apply countNodes_postorder.
  - rewrite <- (Forall2_length _ _ _ (links_structure T 0 0 Ht)).
    pose proof (child_pairs_length T 0 0). lia.
  - rewrite placed_nodes. apply postorder_preorder.
Qed.

Lemma C2_one_node_and_one_link_each_witness :
  is_tree sample_tree /\
  exists L,
    computeLayout sample_tree = Some L /\
    length (lay_nodes L) = countNodes sample_tree /\
    length (lay_links L) = (countNodes sample_tree - 1)%nat /\
    map node (lay_nodes L) ≡ₚ preorder sample_tree.
Proof.
  split; [exact sample_is_tree|].
  apply (C2_one_node_and_one_link_each sample_tree), sample_is_tree.
Defined.

(** C3: for every input tree and every node [P] of it with children
    [c1 .. ck] (k >= 1), [P], [c1] and [ck] are laid out and the [y] of [P]
    is [(y of c1 + y of ck) / 2], whatever lies between them; with a single
    child it is that child's [y]. *)
Theorem C3_parent_midpoint (T : MindMapNode) :
  is_tree T ->
  exists L,
    computeLayout T = Some L /\
    forall P cs c1 ck,
      P ∈ preorder T -> children P = Some cs ->
      head cs = Some c1 -> last cs = Some ck ->
      (exists lp l1 lk,
          lp ∈ lay_nodes L /\ l1 ∈ lay_nodes L /\ lk ∈ lay_nodes L /\
          node lp = P /\ node l1 = c1 /\ node lk = ck /\
          y lp = (y l1 + y lk) / 2) /\
      (forall lp l1 lk,
          lp ∈ lay_nodes L -> l1 ∈ lay_nodes L -> lk ∈ lay_nodes L ->
          node lp = P -> node l1 = c1 -> node lk = ck ->
          y lp = (y l1 + y lk) / 2) /\
      (cs = [c1] ->
       forall lp l1, lp ∈ lay_nodes L -> l1 ∈ lay_nodes L ->
                     node lp = P -> node l1 = c1 -> y lp == y l1).
Proof.
  intros Ht. destruct (computeLayout_spec T Ht) as (w & E).
  eexists. split; [exact E|]. cbn [lay_nodes]. intros P cs c1 ck HP Hcs H1 Hk.
  destruct (placed_of_node T 0 0 P HP) as (a & Ha & Na).
  rewrite <- Na in Hcs.
  destruct (placed_midpoint T 0 0 a cs c1 ck Ha Hcs H1 Hk)
    as (l1 & lk & Hl1 & Hlk & E1 & Ek & Hy).
  assert (Huniq : forall b b', b ∈ placed T 0 0 -> b' ∈ placed T 0 0 -> node b = node b' -> b = b').
  { intros b b' Hb Hb' Hn.
    apply (NoDup_map_eq (fun a => ref (node a)) (placed T 0 0));
      [apply placed_refs_NoDup, Ht|assumption..|]. simpl. congruence. }
  assert (Hall : forall lp' l1' lk',
             lp' ∈ placed T 0 0 -> l1' ∈ placed T 0 0 -> lk' ∈ placed T 0 0 ->
             node lp' = P -> node l1' = c1 -> node lk' = ck ->
             y lp' = (y l1' + y lk') / 2).
  { intros lp' l1' lk' Hp' H1' Hk' Np N1 Nk.
    rewrite (Huniq lp' a), (Huniq l1' l1), (Huniq lk' lk);
      [exact Hy|assumption|assumption|congruence|
       assumption|assumption|congruence|assumption|assumption|congruence]. }
  split; [exists a, l1, lk; repeat split; assumption|]. split; [exact Hall|].
  intros -> lp' l1' Hp' H1' Np N1. cbn in Hk. injection Hk as <-.
  rewrite (Hall lp' l1' l1' Hp' H1' H1' Np N1 N1). qlra.
Qed.

Lemma C3_parent_midpoint_witness :
  is_tree sample_tree /\
  exists L,
    computeLayout sample_tree = Some L /\
    forall P cs c1 ck,
      P ∈ preorder sample_tree -> children P = Some cs ->
      head cs = Some c1 -> last cs = Some ck ->
      (exists lp l1 lk,
          lp ∈ lay_nodes L /\ l1 ∈ lay_nodes L /\ lk ∈ lay_nodes L /\
          node lp = P /\ node l1 = c1 /\ node lk = ck /\
          y lp = (y l1 + y lk) / 2) /\
      (forall lp l1 lk,
          lp ∈ lay_nodes L -> l1 ∈ lay_nodes L -> lk ∈ lay_nodes L ->
          node lp = P -> node l1 = c1 -> node lk = ck ->
          y lp = (y l1 + y lk) / 2) /\
      (cs = [c1] ->
       forall lp l1, lp ∈ lay_nodes L -> l1 ∈ lay_nodes L ->
                     node lp = P -> node l1 = c1 -> y lp == y l1).
Proof.
  split; [exact sample_is_tree|].
  apply (C3_parent_midpoint sample_tree), sample_is_tree.
Defined.

(** C4: for every input tree, pass 2 enters every node once, hands the
    first child of a node the node's own offset and every next child the
    previous child's offset plus the previous child's subtree height, and
    no point lies in the half-open bands of two different children. *)
Theorem C4_children_stacked_in_bands (T : MindMapNode) :
  is_tree T ->
  exists totalHeight st,
    run_passes T = Some (totalHeight, st) /\
    map arg_node (calls st) = preorder T /\
    forall p cs, p ∈ calls st -> children (arg_node p) = Some cs -> children_stacked st p cs.
Proof.
  intros Ht. destruct (run_passes_spec T Ht) as (m & E & Hm).
  eexists _, _. split; [exact E|]. cbn [calls].
  split; [apply visited_nodes|].
  intros p cs Hp Hcs. apply visited_stacked; assumption.
Qed.

Lemma C4_children_stacked_in_bands_witness :
  is_tree sample_tree /\
  exists totalHeight st,
    run_passes sample_tree = Some (totalHeight, st) /\
    map arg_node (calls st) = preorder sample_tree /\
    forall p cs, p ∈ calls st -> children (arg_node p) = Some cs -> children_stacked st p cs.
Proof.
  split; [exact sample_is_tree|].
  apply (C4_children_stacked_in_bands sample_tree), sample_is_tree.
Defined.

(** C5: for every input tree, every node of the tree is given exactly one
    entry of the node list, hence one position, and the [NODE_WIDTH] by
    [NODE_HEIGHT] boxes drawn at [(x, y - NODE_HEIGHT / 2)] for two
    different nodes, or for two different entries of the list, do not
    intersect, not even on their borders. *)
Theorem C5_boxes_do_not_intersect (T : MindMapNode) :
  is_tree T ->
  exists L,
    computeLayout T = Some L /\
    (forall d, d ∈ preorder T ->
       exists a, a ∈ lay_nodes L /\ node a = d /\
                 forall a', a' ∈ lay_nodes L -> node a' = d -> a' = a) /\
    (forall d1 d2 a b,
        d1 ∈ preorder T -> d2 ∈ preorder T -> d1 <> d2 ->
        a ∈ lay_nodes L -> node a = d1 -> b ∈ lay_nodes L -> node b = d2 ->
        ~ boxes_intersect a b) /\
    (forall i j a b,
        lay_nodes L !! i = Some a -> lay_nodes L !! j = Some b -> i <> j ->
        ~ boxes_intersect a b) /\
    (forall a b,
        a ∈ lay_nodes L -> b ∈ lay_nodes L -> node a <> node b ->
        ~ boxes_intersect a b).
Proof.
  intros Ht. destruct (computeLayout_spec T Ht) as (w & E).
  eexists. split; [exact E|]. cbn [lay_nodes].
  assert (Hdiff : forall a b, a ∈ placed T 0 0 -> b ∈ placed T 0 0 -> node a <> node b ->
                              ~ boxes_intersect a b).
  { intros a b Ha Hb Hn.
    destruct (ForallOrdPairs_In (placed_apart T 0 0) a b) as [Eab|[H|H]];
      [apply list_elem_of_In, Ha|apply list_elem_of_In, Hb| | |].
    + destruct Hn. rewrite Eab. reflexivity.
    + exact H.
    + apply apart_sym, H. }
  split; [|split; [|split; [|exact Hdiff]]].
  - intros d Hd. destruct (placed_of_node T 0 0 d Hd) as (a & Ha & Na).
    exists a. split; [exact Ha|]. split; [exact Na|].
    intros a' Ha' Na'.
    apply (NoDup_map_eq (fun a => ref (node a)) (placed T 0 0));
      [apply placed_refs_NoDup, Ht|assumption..|]. simpl. congruence.
  - intros d1 d2 a b _ _ Hd Ha Na Hb Nb. apply Hdiff; [assumption..|congruence].
  - intros i j a b Hi Hj Hij.
    destruct (Nat.lt_total i j) as [H|[H|H]]; [|contradiction|].
    + exact (FOP_lookup apart _ (placed_apart T 0 0) i j a b H Hi Hj).
    + apply apart_sym. exact (FOP_lookup apart _ (placed_apart T 0 0) j i b a H Hj Hi).
Qed.

Lemma C5_boxes_do_not_intersect_witness :
  is_tree sample_tree /\
  exists L,
    computeLayout sample_tree = Some L /\
    (forall d, d ∈ preorder sample_tree ->
       exists a, a ∈ lay_nodes L /\ node a = d /\
                 forall a', a' ∈ lay_nodes L -> node a' = d -> a' = a) /\
    (forall d1 d2 a b,
        d1 ∈ preorder sample_tree -> d2 ∈ preorder sample_tree -> d1 <> d2 ->
        a ∈ lay_nodes L -> node a = d1 -> b ∈ lay_nodes L -> node b = d2 ->
        ~ boxes_intersect a b) /\
    (forall i j a b,
        lay_nodes L !! i = Some a -> lay_nodes L !! j = Some b -> i <> j ->
        ~ boxes_intersect a b) /\
    (forall a b,
        a ∈ lay_nodes L -> b ∈ lay_nodes L -> node a <> node b ->
        ~ boxes_intersect a b).
Proof.
  split; [exact sample_is_tree|].
  apply (C5_boxes_do_not_intersect sample_tree), sample_is_tree.
Defined.

(** C6: pass 1 returns and records, for a node without a [children] field
    and for a node with an empty [children] list alike, one slot
    [NODE_HEIGHT + VERTICAL_SEPARATION], and for a node with children the
    sum of its children's subtree heights, with nothing added for the node
    itself. *)
Theorem C6_subtree_height :
  (forall n s, exists s',
      calculateInitialY n s = Some (treeHeight n, s') /\
      treeHeight n == spec_subtreeHeight n /\
      nodeMap s' !! ref n = Some (mkInfo 0 (treeHeight n))) /\
  (forall r t s,
      calculateInitialY (mkNode r t None) s = calculateInitialY (mkNode r t (Some [])) s /\
      calculateInitialY (mkNode r t None) s
      = Some (NODE_HEIGHT + VERTICAL_SEPARATION,
              mkState (nodes s)
                      (<[r := mkInfo 0 (NODE_HEIGHT + VERTICAL_SEPARATION)]> (nodeMap s))
                      (calls s))) /\
  (forall r t c cs,
      treeHeight (mkNode r t (Some (c :: cs))) == Qsum (map treeHeight (c :: cs))).
Proof.
  split; [|split].
  - intros n s. eexists. split; [apply calculateInitialY_spec|].
    split; [apply treeHeight_spec|apply set_heights_self].
  - intros r t s. split; reflexivity.
  - apply treeHeight_internal.
Qed.




(** C8: for every input tree, each layout node carries the depth of its
    node as [level] (the root has level 0) and its [x] is that level times
    [HORIZONTAL_SEPARATION]; the root is at [x = 0], and two layout nodes of
    the same level have the same [x]. *)
Theorem C8_x_is_level_times_separation (T : MindMapNode) :
  is_tree T ->
  exists L,
    computeLayout T = Some L /\
    map (fun a => (node a, level a)) (lay_nodes L) = with_depth T 0 /\
    (forall a, a ∈ lay_nodes L -> x a = Qlevel (level a) * HORIZONTAL_SEPARATION) /\
    (exists a, a ∈ lay_nodes L /\ node a = T /\ level a = 0%nat /\ x a == 0) /\
    (forall a b, a ∈ lay_nodes L -> b ∈ lay_nodes L -> level a = level b -> x a = x b).
Proof.
  intros Ht. destruct (computeLayout_spec T Ht) as (w & E).
  eexists. split; [exact E|]. cbn [lay_nodes].
  split; [apply placed_depth|]. split; [apply placed_x|]. split.
  - eexists. split; [apply placed_root|]. cbn [node level x]. repeat split.
  - intros a b Ha Hb Hl. rewrite (placed_x _ _ _ _ Ha), (placed_x _ _ _ _ Hb), Hl. reflexivity.
Qed.

Lemma C8_x_is_level_times_separation_witness :
  is_tree sample_tree /\
  exists L,
    computeLayout sample_tree = Some L /\
    map (fun a => (node a, level a)) (lay_nodes L) = with_depth sample_tree 0 /\
    (forall a, a ∈ lay_nodes L -> x a = Qlevel (level a) * HORIZONTAL_SEPARATION) /\
    (exists a, a ∈ lay_nodes L /\ node a = sample_tree /\ level a = 0%nat /\ x a == 0) /\
    (forall a b, a ∈ lay_nodes L -> b ∈ lay_nodes L -> level a = level b -> x a = x b).
Proof.
  split; [exact sample_is_tree|].
  apply (C8_x_is_level_times_separation sample_tree), sample_is_tree.
Defined.

(** C9: for every input tree and every node [P] of it with child [C], both
    are laid out and the link list holds, at exactly one position, a link
    from [(P.x + NODE_WIDTH, P.y)] to [(C.x, C.y)]. *)
Theorem C9_one_link_per_pair (T : MindMapNode) :
  is_tree T ->
  exists L,
    computeLayout T = Some L /\
    forall P C, P ∈ preorder T -> C ∈ kids P ->
      exists lp lc i,
        lp ∈ lay_nodes L /\ lc ∈ lay_nodes L /\ node lp = P /\ node lc = C /\
        lay_links L !! i
        = Some (mkLink (mkPoint (x lp + NODE_WIDTH) (y lp)) (mkPoint (x lc) (y lc))) /\
        forall j e,
          lay_links L !! j = Some e ->
          same_link e (mkLink (mkPoint (x lp + NODE_WIDTH) (y lp)) (mkPoint (x lc) (y lc))) ->
          j = i.
Proof.
  intros Ht. destruct (computeLayout_spec T Ht) as (w & E).
  eexists. split; [exact E|]. cbn [lay_nodes lay_links]. intros P C HP HC.
  set (ns := placed T 0 0).
  pose proof (links_structure T 0 0 Ht) as F2. fold ns in F2.
  assert (Huniq : forall b b', b ∈ ns -> b' ∈ ns -> node b = node b' -> b = b').
  { intros b b' Hb Hb' Hn.
    apply (NoDup_map_eq (fun a => ref (node a)) ns);
      [apply placed_refs_NoDup, Ht|assumption..|]. simpl. congruence. }
  destruct (placed_of_node T 0 0 P HP) as (lp & Hlp & Np). fold ns in Hlp.
  destruct (placed_of_node T 0 0 C (kids_in_tree T P C HP HC)) as (lc & Hlc & Nc).
  fold ns in Hlc.
  assert (Hpair : In (lp, C) (child_pairs ns)).
  { apply in_flat_map. exists lp. split; [apply list_elem_of_In, Hlp|].
    apply in_map. rewrite Np. apply list_elem_of_In, HC. }
  apply list_elem_of_In, list_elem_of_lookup_1 in Hpair as (i & Hi).
  destruct (Forall2_lookup_l _ _ _ _ _ F2 Hi) as (e & He & tgt & Htgt & Nt & ->).
  cbn [fst snd] in Nt. assert (tgt = lc) as -> by (apply Huniq; congruence).
  exists lp, lc, i. do 4 (split; [assumption|]). split; [exact He|].
  intros j e' Hj [_ [Hx Hy]].
  destruct (Forall2_lookup_r _ _ _ _ _ F2 Hj) as ([src' c'] & Hj' & tgt' & Htgt' & Nt' & ->).
  cbn [fst snd edge target px py] in *.
  assert (tgt' = lc) as -> by (apply (placed_same_point T 0%nat 0); assumption).
  apply (NoDup_lookup _ j i (ref C) (child_refs_NoDup T 0 0 Ht)).
  - fold ns. rewrite (map_lookup _ _ _ _ Hj'). simpl. congruence.
  - fold ns. rewrite (map_lookup _ _ _ _ Hi). reflexivity.
Qed.

Lemma C9_one_link_per_pair_witness :
  is_tree sample_tree /\
  exists L,
    computeLayout sample_tree = Some L /\
    forall P C, P ∈ preorder sample_tree -> C ∈ kids P ->
      exists lp lc i,
        lp ∈ lay_nodes L /\ lc ∈ lay_nodes L /\ node lp = P /\ node lc = C /\
        lay_links L !! i
        = Some (mkLink (mkPoint (x lp + NODE_WIDTH) (y lp)) (mkPoint (x lc) (y lc))) /\
        forall j e,
          lay_links L !! j = Some e ->
          same_link e (mkLink (mkPoint (x lp + NODE_WIDTH) (y lp)) (mkPoint (x lc) (y lc))) ->
          j = i.
Proof.
  split; [exact sample_is_tree|].
  apply (C9_one_link_per_pair sample_tree), sample_is_tree.
Defined.


(** C10: for every input tree, pass 1 records for each node a subtree height
    equal to the number of leaves below it times
    [NODE_HEIGHT + VERTICAL_SEPARATION], and the canvas height is the number
    of leaves of the tree times that slot, plus 40. *)
Theorem C10_height_counts_leaves (T : MindMapNode) :
  is_tree T ->
  (exists s',
      calculateInitialY T initial_state = Some (treeHeight T, s') /\
      forall d, d ∈ preorder T ->
        exists info, nodeMap s' !! ref d = Some info /\
          subtreeHeight info
          == inject_Z (Z.of_nat (leafCount d)) * (NODE_HEIGHT + VERTICAL_SEPARATION)) /\
  (exists L,
      computeLayout T = Some L /\
      height L
      == inject_Z (Z.of_nat (leafCount T)) * (NODE_HEIGHT + VERTICAL_SEPARATION) + 40).
Proof.
  intros Ht. split.
  - eexists. split; [apply calculateInitialY_spec|]. intros d Hd.
    destruct (pass1_heights_ok T initial_state Ht d Hd) as (info & E & Hi).
    exists info. split; [exact E|]. rewrite Hi. apply treeHeight_leaves.
  - destruct (computeLayout_spec T Ht) as (w & E).
    eexists. split; [exact E|]. cbn [height]. rewrite treeHeight_leaves. reflexivity.
Qed.

Lemma C10_height_counts_leaves_witness :
  is_tree sample_tree /\
  (exists s',
      calculateInitialY sample_tree initial_state = Some (treeHeight sample_tree, s') /\
      forall d, d ∈ preorder sample_tree ->
        exists info, nodeMap s' !! ref d = Some info /\
          subtreeHeight info
          == inject_Z (Z.of_nat (leafCount d)) * (NODE_HEIGHT + VERTICAL_SEPARATION)) /\
  (exists L,
      computeLayout sample_tree = Some L /\
      height L
      == inject_Z (Z.of_nat (leafCount sample_tree)) * (NODE_HEIGHT + VERTICAL_SEPARATION) + 40).
Proof.
  split; [exact sample_is_tree|].
  apply (C10_height_counts_leaves sample_tree), sample_is_tree.
Defined.

(** * Further properties of the component *)

(** ** The widest column *)

Lemma Math_max_spec l m :
  Math_max l = Some m ->
  (forall v, v ∈ l -> v <= m) /\ (exists v, v ∈ l /\ m == v).
Proof.
  destruct l as [|v0 l]; [discriminate|]. intros H. injection H as <-.
  revert v0. induction l as [|v l IH]; intros v0; cbn [fold_left].
  - split.
    + intros v Hv. apply list_elem_of_singleton in Hv. subst v. apply Qle_refl.
    + exists v0. split; [left|reflexivity].
  - destruct (IH (Qmax v0 v)) as [Hle (w & Hw & Ew)]. split.
    + intros u Hu. apply elem_of_cons in Hu as [->|Hu].
      * eapply Qle_trans; [apply Q.le_max_l|]. apply Hle. left.
      * apply elem_of_cons in Hu as [->|Hu].
        -- eapply Qle_trans; [apply Q.le_max_r|]. apply Hle. left.
        -- apply Hle. right. exact Hu.
    + apply elem_of_cons in Hw as [->|Hw].
      * destruct (Q.max_spec v0 v) as [[_ E]|[_ E]].
        -- exists v. split; [right; left|]. rewrite Ew. exact E.
        -- exists v0. split; [left|]. rewrite Ew. exact E.
      * exists w. split; [right; right; exact Hw|exact Ew].
Qed.

Lemma computeLayout_width n :
  is_tree n ->
  exists m,
    Math_max (map x (placed n 0 0)) = Some m /\
    computeLayout n
    = Some (mkLayout (placed n 0 0) (make_links (placed n 0 0))
                     (m + NODE_WIDTH + 40) (treeHeight n + 40)).
Proof.
  intros Ht. destruct (run_passes_spec n Ht) as (m & E & _).
  unfold computeLayout. rewrite E. cbn [nodes].
  destruct (Math_max (map x (placed n 0 0))) as [w|] eqn:Ex.
  - exists w. split; reflexivity.
  - destruct (map x (placed n 0 0)) eqn:Em; [|discriminate].
    apply map_eq_nil in Em. destruct (placed_nonempty _ _ _ Em).
Qed.

Lemma Qlevel_le i j : (i <= j)%nat -> Qlevel i <= Qlevel j.
Proof. intros H. unfold Qlevel. rewrite <- Zle_Qle. lia. Qed.

Lemma list_max_elem l : l <> [] -> list_max l ∈ l.
Proof.
  induction l as [|a l IH]; [congruence|]. intros _. cbn [list_max fold_right].
  destruct l as [|b l].
  - simpl. rewrite Nat.max_0_r. left.
  - change (fold_right Nat.max 0%nat (b :: l)) with (list_max (b :: l)).
    destruct (Nat.max_spec a (list_max (b :: l))) as [[_ ->]|[_ ->]].
    + right. apply IH. discriminate.
    + left.
Qed.

Lemma placed_level_le n : forall k yo a,
  a ∈ placed n k yo -> (level a <= k + treeDepth n)%nat.
Proof.
  induction n as [r t ch IH] using tree_ind. intros k yo a Ha.
  destruct ch as [cs|]; cbn [placed] in Ha.
  - apply elem_of_app in Ha as [Ha|Ha].
    + specialize (IH _ eq_refl). rewrite Forall_forall in IH.
      apply in_stack_concat in Ha as (c & o & Hp & Ha).
      apply slots_band in Hp as (Hc & _).
      pose proof (IH c Hc _ _ _ Ha) as Hl. cbn [treeDepth].
      assert (S (treeDepth c) <= list_max (map (fun c => S (treeDepth c)) cs))%nat; [|lia].
      pose proof (proj1 (list_max_le (map (fun c => S (treeDepth c)) cs) _) (Nat.le_refl _)) as Hall.
      rewrite List.Forall_forall in Hall.
      apply Hall, (in_map (fun c => S (treeDepth c))), list_elem_of_In, Hc.
    + apply list_elem_of_singleton in Ha. subst a. cbn [level]. lia.
  - apply list_elem_of_singleton in Ha. subst a. cbn [level]. lia.
Qed.

Lemma placed_deepest n : forall k yo,
  exists a, a ∈ placed n k yo /\ level a = (k + treeDepth n)%nat.
Proof.
  induction n as [r t ch IH] using tree_ind. intros k yo.
  assert (Hroot : treeDepth (mkNode r t ch) = 0%nat ->
                  exists a, a ∈ placed (mkNode r t ch) k yo /\
                            level a = (k + treeDepth (mkNode r t ch))%nat).
  { intros E. eexists. split; [apply placed_root|]. rewrite E. cbn [level]. lia. }
  destruct ch as [[|c0 cs]|]; [apply Hroot; reflexivity| |apply Hroot; reflexivity].
  specialize (IH _ eq_refl). rewrite Forall_forall in IH. cbn [treeDepth].
  pose proof (list_max_elem (map (fun c => S (treeDepth c)) (c0 :: cs))) as Hm.
  destruct (proj1 (in_map_iff _ _ _) (proj1 (list_elem_of_In _ _) (Hm ltac:(discriminate))))
    as (c & Ec & Hc).
  apply list_elem_of_In in Hc.
  apply list_elem_of_lookup_1 in Hc as (i & Hi).
  destruct (slots_lookup (c0 :: cs) yo i c Hi) as (o & Ho).
  destruct (IH c (list_elem_of_lookup_2 _ _ _ Hi) (S k) o) as (a & Ha & Hl).
  exists a. split.
  - cbn [placed]. apply elem_of_app. left. apply in_stack_concat.
    exists c, o. split; [eapply list_elem_of_lookup_2, Ho|exact Ha].
  - rewrite Hl, <- Ec. lia.
Qed.

Lemma widest_column n :
  forall m, Math_max (map x (placed n 0 0)) = Some m ->
  m == Qlevel (treeDepth n) * HORIZONTAL_SEPARATION.
Proof.
  intros m Hm. destruct (Math_max_spec _ _ Hm) as [Hle (v & Hv & Ev)].
  apply Qle_antisym.
  - rewrite Ev. apply list_elem_of_In, in_map_iff in Hv as (a & <- & Ha).
    apply list_elem_of_In in Ha. rewrite (placed_x _ _ _ _ Ha).
    pose proof (Qlevel_le _ _ (placed_level_le n 0 0 a Ha)) as H. simpl in H. qlra.
  - destruct (placed_deepest n 0 0) as (a & Ha & Hl). simpl in Hl.
    rewrite <- Hl, <- (placed_x _ _ _ _ Ha).
    apply Hle, list_elem_of_In, in_map, list_elem_of_In, Ha.
Qed.

(** ** Layout nodes and activations correspond *)

Lemma placed_of_call n : forall k yo p,
  p ∈ visited n k yo -> layout_of_call p ∈ placed n k yo.
Proof.
  induction n as [r t ch IH] using tree_ind. intros k yo p Hp.
  cbn [visited] in Hp. apply elem_of_cons in Hp as [->|Hp]; [apply placed_root|].
  destruct ch as [cs|]; [|inversion Hp].
  specialize (IH _ eq_refl). rewrite Forall_forall in IH.
  apply in_stack_concat in Hp as (c & o & Hs & Hp).
  cbn [placed]. apply elem_of_app. left. apply in_stack_concat. exists c, o.
  split; [exact Hs|]. apply IH; [|exact Hp]. apply slots_band in Hs as (Hc & _). exact Hc.
Qed.

Lemma call_of_placed n : forall k yo a,
  a ∈ placed n k yo -> exists p, p ∈ visited n k yo /\ a = layout_of_call p.
Proof.
  induction n as [r t ch IH] using tree_ind. intros k yo a Ha.
  assert (Hself : a ∈ [mkLayoutNode (mkNode r t ch) (Qlevel k * HORIZONTAL_SEPARATION)
                                    (centerY (mkNode r t ch) yo) k] ->
                  exists p, p ∈ visited (mkNode r t ch) k yo /\ a = layout_of_call p).
  { intros H. apply list_elem_of_singleton in H. subst a.
    exists (mkCall (mkNode r t ch) k yo). split; [apply visited_root|reflexivity]. }
  destruct ch as [cs|]; cbn [placed] in Ha; [|apply Hself, Ha].
  apply elem_of_app in Ha as [Ha|Ha]; [|apply Hself, Ha].
  specialize (IH _ eq_refl). rewrite Forall_forall in IH.
  apply in_stack_concat in Ha as (c & o & Hs & Ha).
  pose proof Hs as Hc. apply slots_band in Hc as (Hc & _).
  destruct (IH c Hc _ _ _ Ha) as (p & Hp & E).
  exists p. split; [|exact E].
  cbn [visited]. right. apply in_stack_concat. exists c, o. auto.
Qed.

(** The layout nodes of the children of a laid-out node: one level deeper,
    each centred in its own slot. *)
Lemma placed_children n k yo a cs :
  is_tree n ->
  a ∈ placed n k yo -> children (node a) = Some cs ->
  exists o,
    y a = centerY (node a) o /\
    forall i c, cs !! i = Some c ->
      exists oc b,
        slots cs o !! i = Some (c, oc) /\
        b ∈ placed n k yo /\ node b = c /\ level b = S (level a) /\ y b = centerY c oc /\
        forall b', b' ∈ placed n k yo -> node b' = c -> b' = b.
Proof.
  intros Ht Ha Hcs.
  destruct (call_of_placed n k yo a Ha) as (p & Hp & ->).
  cbn [layout_of_call node level y] in *.
  exists (arg_yOffset p). split; [reflexivity|]. intros i c Hi.
  destruct (slots_lookup cs (arg_yOffset p) i c Hi) as (oc & Hoc).
  pose proof (visited_children n k yo p cs c oc Hp Hcs (list_elem_of_lookup_2 _ _ _ Hoc)) as Hq.
  exists oc, (layout_of_call (mkCall c (S (arg_level p)) oc)).
  split; [exact Hoc|].
  split; [apply placed_of_call, Hq|]. do 3 (split; [reflexivity|]).
  intros b' Hb' Nb'.
  apply (NoDup_map_eq (fun a => ref (node a)) (placed n k yo));
    [apply placed_refs_NoDup, Ht|exact Hb'|apply placed_of_call, Hq|].
  simpl. congruence.
Qed.

Lemma child_pairs_elem ns src c :
  (src, c) ∈ child_pairs ns <-> src ∈ ns /\ c ∈ kids (node src).
Proof.
  unfold child_pairs. rewrite list_elem_of_In, in_flat_map. split.
  - intros (a & Ha & H). apply in_map_iff in H as (c' & E & Hc'). injection E as -> ->.
    split; apply list_elem_of_In; assumption.
  - intros [Hs Hc]. exists src. split; [apply list_elem_of_In, Hs|].
    apply in_map, list_elem_of_In, Hc.
Qed.

Lemma kids_children n c : c ∈ kids n -> exists cs, children n = Some cs /\ c ∈ cs.
Proof.
  unfold kids. destruct (children n) as [cs|]; intros H; [eauto|inversion H].
Qed.

(** Every link joins a laid-out node to the layout node of one of its
    children, one level deeper. *)
Lemma links_join_children n k yo e :
  is_tree n -> e ∈ make_links (placed n k yo) ->
  exists src tgt,
    src ∈ placed n k yo /\ tgt ∈ placed n k yo /\
    node tgt ∈ kids (node src) /\ level tgt = S (level src) /\ e = edge src tgt.
Proof.
  intros Ht He. apply list_elem_of_lookup_1 in He as (j & Hj).
  destruct (Forall2_lookup_r _ _ _ _ _ (links_structure n k yo Ht) Hj)
    as ([src c] & Hp & tgt & Htgt & Nt & ->).
  cbn [fst snd] in *.
  apply list_elem_of_lookup_2, child_pairs_elem in Hp as [Hsrc Hc].
  exists src, tgt. split; [exact Hsrc|]. split; [exact Htgt|].
  split; [rewrite Nt; exact Hc|]. split; [|reflexivity].
  destruct (kids_children _ _ Hc) as (cs & Hcs & Hin).
  apply list_elem_of_lookup_1 in Hin as (i & Hi).
  destruct (placed_children n k yo src cs Ht Hsrc Hcs) as (o & _ & Hall).
  destruct (Hall i c Hi) as (oc & b & _ & _ & _ & Hl & _ & Huniq).
  rewrite (Huniq tgt Htgt Nt). exact Hl.
Qed.

(** ** Leaves *)

Lemma leaf_nodes_app l1 l2 : leaf_nodes (l1 ++ l2) = leaf_nodes l1 ++ leaf_nodes l2.
Proof. apply List.filter_app. Qed.

Lemma stack_leaves cs :
  Forall (fun c => forall k yo,
            length (leaf_nodes (placed c k yo)) = leafCount c /\
            leaves_spaced (placed c k yo) yo) cs ->
  forall k yo,
    length (leaf_nodes (concat (stack (fun c o => placed c k o) cs yo)))
    = list_sum (map leafCount cs) /\
    leaves_spaced (concat (stack (fun c o => placed c k o) cs yo)) yo.
Proof.
  induction 1 as [|c cs Hc _ IH]; intros k yo.
  - split; [reflexivity|]. intros i a H. destruct i; discriminate.
  - cbn [stack concat map]. rewrite leaf_nodes_app, length_app.
    destruct (Hc k yo) as [Lc Sc]. destruct (IH k (yo + treeHeight c)) as [Lr Sr].
    split; [rewrite Lc, Lr; reflexivity|].
    intros i a H. unfold leaves_spaced in *. rewrite leaf_nodes_app in H.
    apply lookup_app_Some in H as [H|[Hge H]].
    + apply Sc, H.
    + rewrite (Sr _ _ H), Lc, treeHeight_leaves.
      replace i with (leafCount c + (i - leafCount c))%nat at 2 by lia.
      rewrite Nat2Z.inj_add, inject_Z_plus. unfold slot. qlra.
Qed.

Lemma placed_leaves n : forall k yo,
  length (leaf_nodes (placed n k yo)) = leafCount n /\ leaves_spaced (placed n k yo) yo.
Proof.
  induction n as [r t ch IH] using tree_ind. intros k yo.
  assert (Hleaf : is_leaf (mkNode r t ch) = true -> leafCount (mkNode r t ch) = 1%nat ->
                  placed (mkNode r t ch) k yo
                  = [mkLayoutNode (mkNode r t ch) (Qlevel k * HORIZONTAL_SEPARATION)
                                  (yo + slot / 2) k] ->
                  length (leaf_nodes (placed (mkNode r t ch) k yo)) = leafCount (mkNode r t ch) /\
                  leaves_spaced (placed (mkNode r t ch) k yo) yo).
  { intros Hl Hc Hp. rewrite Hp, Hc. unfold leaves_spaced, leaf_nodes.
    cbn [List.filter node]. rewrite Hl. split; [reflexivity|].
    intros [|i] a H; [|destruct i; discriminate]. injection H as <-. cbn [y].
    change (inject_Z (Z.of_nat 0)) with 0. unfold slot. qlra. }
  destruct ch as [[|c cs]|]; [apply Hleaf; reflexivity| |apply Hleaf; reflexivity].
  specialize (IH _ eq_refl).
  destruct (stack_leaves _ IH (S k) yo) as [L S0].
  cbn [placed]. unfold leaves_spaced. rewrite leaf_nodes_app.
  unfold leaf_nodes at 2 4. cbn [List.filter node is_leaf children]. rewrite app_nil_r.
  split; [exact L|exact S0].
Qed.

(** ** The midpoint rule on the layout *)

Lemma layout_midpoint T :
  is_tree T ->
  exists L,
    computeLayout T = Some L /\
    forall a cs c1 ck l1 lk,
      a ∈ lay_nodes L -> children (node a) = Some cs ->
      head cs = Some c1 -> last cs = Some ck ->
      l1 ∈ lay_nodes L -> lk ∈ lay_nodes L -> node l1 = c1 -> node lk = ck ->
      y a = (y l1 + y lk) / 2.
Proof.
  intros Ht. destruct (computeLayout_spec T Ht) as (w & E).
  eexists. split; [exact E|]. cbn [lay_nodes].
  intros a cs c1 ck l1' lk' Ha Hcs H1 Hk H1' Hk' N1 Nk.
  destruct (placed_midpoint T 0 0 a cs c1 ck Ha Hcs H1 Hk)
    as (l1 & lk & Hl1 & Hlk & E1 & Ek & Hy).
  assert (Huniq : forall b b', b ∈ placed T 0 0 -> b' ∈ placed T 0 0 -> node b = node b' -> b = b').
  { intros b b' Hb Hb' Hn.
    apply (NoDup_map_eq (fun a => ref (node a)) (placed T 0 0));
      [apply placed_refs_NoDup, Ht|assumption..|]. simpl. congruence. }
  rewrite (Huniq l1' l1), (Huniq lk' lk); [exact Hy|assumption|assumption|congruence|
                                           assumption|assumption|congruence].
Qed.

Lemma placed_siblings_ordered T a cs i j bi bj :
  is_tree T ->
  a ∈ placed T 0 0 -> children (node a) = Some cs -> (i < j)%nat ->
  bi ∈ placed T 0 0 -> cs !! i = Some (node bi) ->
  bj ∈ placed T 0 0 -> cs !! j = Some (node bj) ->
  y bi + (NODE_HEIGHT + VERTICAL_SEPARATION) <= y bj.
Proof.
  intros Ht Ha Hcs Hij Hbi Hi Hbj Hj.
  destruct (placed_children T 0 0 a cs Ht Ha Hcs) as (o & _ & Hall).
  destruct (Hall i _ Hi) as (oi & b1 & Si & _ & _ & _ & Y1 & U1).
  destruct (Hall j _ Hj) as (oj & b2 & Sj & _ & _ & _ & Y2 & U2).
  rewrite (U1 bi Hbi eq_refl), (U2 bj Hbj eq_refl), Y1, Y2.
  pose proof (slots_ordered cs o i j _ _ _ _ Hij Si Sj) as Hord.
  destruct (centerY_band (node bi) oi) as [_ H1].
  destruct (centerY_band (node bj) oj) as [H2 _]. qlra.
Qed.

(** ** Canvas, columns and rows *)

(** X1: for every input tree, every box, shifted by the inset of the group
    it is drawn in, lies on the canvas with at least that inset to spare on
    each of its four sides. *)
Theorem boxes_on_canvas (T : MindMapNode) :
  is_tree T ->
  exists L,
    computeLayout T = Some L /\
    forall a, a ∈ lay_nodes L ->
      INSET <= INSET + box_left a /\ INSET + box_right a + INSET <= width L /\
      INSET <= INSET + box_top a /\ INSET + box_bottom a + INSET <= height L.
Proof.
  intros Ht. destruct (computeLayout_width T Ht) as (m & Hm & E).
  eexists. split; [exact E|]. cbn [lay_nodes width height]. intros a Ha.
  destruct (placed_band T 0 0 a Ha) as (Hlo & Hhi & _).
  pose proof (placed_x T 0 0 a Ha) as Hx.
  pose proof (Qlevel_le 0 (level a) (Nat.le_0_l _)) as Hl.
  change (Qlevel 0) with 0 in Hl.
  destruct (Math_max_spec _ _ Hm) as [Hle _].
  assert (Hxm : x a <= m).
  { apply Hle, list_elem_of_In, in_map, list_elem_of_In, Ha. }
  unfold box_left, box_right, box_top, box_bottom, INSET. rewrite Hx in *.
  repeat split; qlra.
Qed.

Lemma boxes_on_canvas_witness :
  is_tree sample_tree /\
  exists L,
    computeLayout sample_tree = Some L /\
    forall a, a ∈ lay_nodes L ->
      INSET <= INSET + box_left a /\ INSET + box_right a + INSET <= width L /\
      INSET <= INSET + box_top a /\ INSET + box_bottom a + INSET <= height L.
Proof. split; [exact sample_is_tree|apply (boxes_on_canvas sample_tree), sample_is_tree]. Defined.

(** X2: for every input tree, the canvas width depends on the depth of the
    tree only: one column of [HORIZONTAL_SEPARATION] per level below the
    root, plus one node width and the inset on both sides. *)
Theorem width_by_depth (T : MindMapNode) :
  is_tree T ->
  exists L,
    computeLayout T = Some L /\
    width L == Qlevel (treeDepth T) * HORIZONTAL_SEPARATION + NODE_WIDTH + 2 * INSET.
Proof.
  intros Ht. destruct (computeLayout_width T Ht) as (m & Hm & E).
  eexists. split; [exact E|]. cbn [width]. rewrite (widest_column T m Hm).
  unfold INSET. qlra.
Qed.

Lemma width_by_depth_witness :
  is_tree sample_tree /\
  exists L,
    computeLayout sample_tree = Some L /\
    width L == Qlevel (treeDepth sample_tree) * HORIZONTAL_SEPARATION + NODE_WIDTH + 2 * INSET.
Proof. split; [exact sample_is_tree|apply (width_by_depth sample_tree), sample_is_tree]. Defined.

(** X3: for every input tree, the node list holds as many leaves as the
    tree has, and the i-th of them (from 0, in list order, which is the
    leaves' order from first to last child) is centred at half a slot plus
    i slots: 50, 150, 250, ... *)
Theorem leaves_evenly_spaced (T : MindMapNode) :
  is_tree T ->
  exists L,
    computeLayout T = Some L /\
    length (leaf_nodes (lay_nodes L)) = leafCount T /\
    forall i a, leaf_nodes (lay_nodes L) !! i = Some a ->
      y a == (NODE_HEIGHT + VERTICAL_SEPARATION) / 2
             + inject_Z (Z.of_nat i) * (NODE_HEIGHT + VERTICAL_SEPARATION).
Proof.
  intros Ht. destruct (computeLayout_spec T Ht) as (w & E).
  eexists. split; [exact E|]. cbn [lay_nodes].
  destruct (placed_leaves T 0 0) as [Hlen Hsp]. split; [exact Hlen|].
  intros i a H. rewrite (Hsp i a H). unfold slot. qlra.
Qed.

Lemma leaves_evenly_spaced_witness :
  is_tree sample_tree /\
  exists L,
    computeLayout sample_tree = Some L /\
    length (leaf_nodes (lay_nodes L)) = leafCount sample_tree /\
    forall i a, leaf_nodes (lay_nodes L) !! i = Some a ->
      y a == (NODE_HEIGHT + VERTICAL_SEPARATION) / 2
             + inject_Z (Z.of_nat i) * (NODE_HEIGHT + VERTICAL_SEPARATION).
Proof.
  split; [exact sample_is_tree|apply (leaves_evenly_spaced sample_tree), sample_is_tree].
Defined.

(** X4: for every input tree, the children of a node are laid out from top
    to bottom in their given order: a child listed later is centred at
    least one slot below a child listed earlier. *)
Theorem siblings_top_to_bottom (T : MindMapNode) :
  is_tree T ->
  exists L,
    computeLayout T = Some L /\
    forall a cs i j bi bj,
      a ∈ lay_nodes L -> children (node a) = Some cs -> (i < j)%nat ->
      bi ∈ lay_nodes L -> cs !! i = Some (node bi) ->
      bj ∈ lay_nodes L -> cs !! j = Some (node bj) ->
      y bi + (NODE_HEIGHT + VERTICAL_SEPARATION) <= y bj.
Proof.
  intros Ht. destruct (computeLayout_spec T Ht) as (w & E).
  eexists. split; [exact E|]. cbn [lay_nodes].
  intros a cs i j bi bj Ha Hcs Hij Hbi Hi Hbj Hj.
  exact (placed_siblings_ordered T a cs i j bi bj Ht Ha Hcs Hij Hbi Hi Hbj Hj).
Qed.

Lemma siblings_top_to_bottom_witness :
  is_tree sample_tree /\
  exists L,
    computeLayout sample_tree = Some L /\
    forall a cs i j bi bj,
      a ∈ lay_nodes L -> children (node a) = Some cs -> (i < j)%nat ->
      bi ∈ lay_nodes L -> cs !! i = Some (node bi) ->
      bj ∈ lay_nodes L -> cs !! j = Some (node bj) ->
      y bi + (NODE_HEIGHT + VERTICAL_SEPARATION) <= y bj.
Proof.
  split; [exact sample_is_tree|apply (siblings_top_to_bottom sample_tree), sample_is_tree].
Defined.

(** X5: for every input tree, a node with children is never drawn above its
    first child nor below its last child. *)
Theorem parent_within_children (T : MindMapNode) :
  is_tree T ->
  exists L,
    computeLayout T = Some L /\
    forall a cs c1 ck b1 bk,
      a ∈ lay_nodes L -> children (node a) = Some cs ->
      head cs = Some c1 -> last cs = Some ck ->
      b1 ∈ lay_nodes L -> node b1 = c1 -> bk ∈ lay_nodes L -> node bk = ck ->
      y b1 <= y a /\ y a <= y bk.
Proof.
  intros Ht. destruct (layout_midpoint T Ht) as (L & E & Hmid).
  exists L. split; [exact E|].
  destruct (computeLayout_spec T Ht) as (w & E2). rewrite E in E2. injection E2 as ->.
  cbn [lay_nodes] in *.
  intros a cs c1 ck b1 bk Ha Hcs H1 Hk Hb1 N1 Hbk Nk.
  pose proof (Hmid a cs c1 ck b1 bk Ha Hcs H1 Hk Hb1 Hbk N1 Nk) as Hy.
  assert (Hle : y b1 <= y bk).
  { rewrite head_lookup in H1. rewrite last_lookup in Hk.
    destruct (Nat.pred (length cs)) as [|j] eqn:Ej.
    - assert (c1 = ck) by congruence. subst ck.
      rewrite (NoDup_map_eq (fun a => ref (node a)) (placed T 0 0) b1 bk);
        [apply Qle_refl|apply placed_refs_NoDup, Ht|assumption..|simpl; congruence].
    - subst c1 ck.
      pose proof (placed_siblings_ordered T a cs 0%nat (S j) b1 bk Ht Ha Hcs
                    ltac:(lia) Hb1 H1 Hbk Hk). qlra. }
  rewrite Hy. split; qlra.
Qed.

Lemma parent_within_children_witness :
  is_tree sample_tree /\
  exists L,
    computeLayout sample_tree = Some L /\
    forall a cs c1 ck b1 bk,
      a ∈ lay_nodes L -> children (node a) = Some cs ->
      head cs = Some c1 -> last cs = Some ck ->
      b1 ∈ lay_nodes L -> node b1 = c1 -> bk ∈ lay_nodes L -> node bk = ck ->
      y b1 <= y a /\ y a <= y bk.
Proof.
  split; [exact sample_is_tree|apply (parent_within_children sample_tree), sample_is_tree].
Defined.

(** ** Links and connector paths *)

(** X6: for every input tree, every link joins the right edge of a laid-out
    node to the left edge of the layout node of one of its children, one
    level deeper; so every link spans the same horizontal gap,
    [HORIZONTAL_SEPARATION - NODE_WIDTH], from left to right. *)
Theorem links_join_parent_to_child (T : MindMapNode) :
  is_tree T ->
  exists L,
    computeLayout T = Some L /\
    forall e, e ∈ lay_links L ->
      (exists src tgt,
          src ∈ lay_nodes L /\ tgt ∈ lay_nodes L /\
          node tgt ∈ kids (node src) /\ level tgt = S (level src) /\
          source e = mkPoint (x src + NODE_WIDTH) (y src) /\
          target e = mkPoint (x tgt) (y tgt)) /\
      px (target e) == px (source e) + (HORIZONTAL_SEPARATION - NODE_WIDTH).
Proof.
  intros Ht. destruct (computeLayout_spec T Ht) as (w & E).
  eexists. split; [exact E|]. cbn [lay_nodes lay_links]. intros e He.
  destruct (links_join_children T 0 0 e Ht He) as (src & tgt & Hs & Htg & Hk & Hl & ->).
  split; [exists src, tgt; repeat split; assumption|].
  cbn [edge source target px].
  rewrite (placed_x _ _ _ _ Hs), (placed_x _ _ _ _ Htg), Hl.
  pose proof (Qlevel_gap (level src) (S (level src)) (Nat.le_refl _)).
  assert (Qlevel (S (level src)) == Qlevel (level src) + 1); [|qlra].
  unfold Qlevel. rewrite Nat2Z.inj_succ. unfold Z.succ. rewrite inject_Z_plus. reflexivity.
Qed.

Lemma links_join_parent_to_child_witness :
  is_tree sample_tree /\
  exists L,
    computeLayout sample_tree = Some L /\
    forall e, e ∈ lay_links L ->
      (exists src tgt,
          src ∈ lay_nodes L /\ tgt ∈ lay_nodes L /\
          node tgt ∈ kids (node src) /\ level tgt = S (level src) /\
          source e = mkPoint (x src + NODE_WIDTH) (y src) /\
          target e = mkPoint (x tgt) (y tgt)) /\
      px (target e) == px (source e) + (HORIZONTAL_SEPARATION - NODE_WIDTH).
Proof.
  split; [exact sample_is_tree|apply (links_join_parent_to_child sample_tree), sample_is_tree].
Defined.

(** X7: for every input tree and every link of its layout, the cubic path
    of [getPath] starts at the link's source and ends at its target, both
    control points lie 20 to the right of the source, the first at the
    height of the source and the second at the height of the target, and
    all four points, shifted by the inset, lie on the canvas. *)
Theorem connector_paths (T : MindMapNode) :
  is_tree T ->
  exists L,
    computeLayout T = Some L /\
    forall e, e ∈ lay_links L ->
      path_start (getPath e) = source e /\ path_end (getPath e) = target e /\
      px (control1 (getPath e)) == px (source e) + 20 /\
      py (control1 (getPath e)) = py (source e) /\
      px (control2 (getPath e)) == px (source e) + 20 /\
      py (control2 (getPath e)) = py (target e) /\
      on_canvas L (path_start (getPath e)) /\ on_canvas L (control1 (getPath e)) /\
      on_canvas L (control2 (getPath e)) /\ on_canvas L (path_end (getPath e)).
Proof.
  intros Ht. destruct (computeLayout_width T Ht) as (m & Hm & E).
  eexists. split; [exact E|]. cbn [lay_nodes lay_links]. intros e He.
  destruct (links_join_children T 0 0 e Ht He) as (src & tgt & Hs & Htg & Hk & Hl & ->).
  destruct (placed_band T 0 0 src Hs) as (Ys1 & Ys2 & _).
  destruct (placed_band T 0 0 tgt Htg) as (Yt1 & Yt2 & _).
  pose proof (placed_x _ _ _ _ Hs) as Xs. pose proof (placed_x _ _ _ _ Htg) as Xt.
  rewrite Hl in Xt.
  assert (HS : Qlevel (S (level src)) == Qlevel (level src) + 1).
  { unfold Qlevel. rewrite Nat2Z.inj_succ. unfold Z.succ. rewrite inject_Z_plus. reflexivity. }
  pose proof (Qlevel_le 0 (level src) (Nat.le_0_l _)) as Hl0. change (Qlevel 0) with 0 in Hl0.
  destruct (Math_max_spec _ _ Hm) as [Hle _].
  assert (Hxm : x tgt <= m).
  { apply Hle, list_elem_of_In, in_map, list_elem_of_In, Htg. }
  unfold on_canvas, getPath, INSET.
  cbn [edge source target px py path_start path_end control1 control2 width height].
  rewrite Xs, Xt, HS in *.
  repeat split; qlra.
Qed.

Lemma connector_paths_witness :
  is_tree sample_tree /\
  exists L,
    computeLayout sample_tree = Some L /\
    forall e, e ∈ lay_links L ->
      path_start (getPath e) = source e /\ path_end (getPath e) = target e /\
      px (control1 (getPath e)) == px (source e) + 20 /\
      py (control1 (getPath e)) = py (source e) /\
      px (control2 (getPath e)) == px (source e) + 20 /\
      py (control2 (getPath e)) = py (target e) /\
      on_canvas L (path_start (getPath e)) /\ on_canvas L (control1 (getPath e)) /\
      on_canvas L (control2 (getPath e)) /\ on_canvas L (path_end (getPath e)).
Proof.
  split; [exact sample_is_tree|apply (connector_paths sample_tree), sample_is_tree].
Defined.

(** X8: the colour class looked up for a level is always defined, repeats
    every four levels, and differs between a level and the next, so a node
    never has the colour of its parent. *)
Theorem level_colours (l : nat) :
  is_Some (level_color l) /\
  level_color (l + 4) = level_color l /\
  level_color (S l) <> level_color l.
Proof.
  unfold level_color. change (length levelColors) with 4%nat.
  replace ((l + 4) mod 4)%nat with (l mod 4)%nat
    by (rewrite <- Nat.Div0.add_mod_idemp_r; change (4 mod 4)%nat with 0%nat;
        rewrite Nat.add_0_r; reflexivity).
  replace (S l mod 4)%nat with ((l mod 4 + 1) mod 4)%nat
    by (rewrite Nat.Div0.add_mod_idemp_l; f_equal; lia).
  pose proof (Nat.mod_upper_bound l 4 ltac:(lia)) as Hb.
  destruct (l mod 4)%nat as [|[|[|[|r]]]]; [| | |  |lia];
    (split; [eexists; reflexivity|]; split; [reflexivity|discriminate]).
Qed.

(** ** Inputs with shared nodes *)

Lemma record_lookup_consistent l :
  (forall a b, a ∈ l -> b ∈ l -> ref a = ref b -> a = b) ->
  forall m d, d ∈ l ->
  fold_left record_height l m !! ref d = Some (mkInfo 0 (treeHeight d)).
Proof.
  induction l as [|d0 l IH] using rev_ind; intros Hc m d Hd; [inversion Hd|].
  rewrite fold_left_app. cbn [fold_left]. unfold record_height at 1.
  destruct (decide (ref d0 = ref d)) as [E|E].
  - assert (d0 = d) as ->.
    { apply Hc; [apply elem_of_app; right; left|exact Hd|exact E]. }
    apply lookup_insert_eq.
  - rewrite lookup_insert_ne by exact E. apply IH.
    + intros a b Ha Hb. apply Hc; apply elem_of_app; left; assumption.
    + apply elem_of_app in Hd as [Hd|Hd]; [exact Hd|].
      apply list_elem_of_singleton in Hd. congruence.
Qed.

Lemma is_tree_consistent n : is_tree n -> consistent n.
Proof. intros Ht a b Ha Hb E. exact (NoDup_map_eq ref (preorder n) a b Ht Ha Hb E). Qed.

Lemma computeLayout_consistent n :
  consistent n ->
  exists w,
    computeLayout n
    = Some (mkLayout (placed n 0 0) (make_links (placed n 0 0)) w (treeHeight n + 40)).
Proof.
  intros Hc.
  assert (Hok : heights_ok (preorder n) (nodeMap (set_heights (postorder n) initial_state))).
  { intros d Hd. exists (mkInfo 0 (treeHeight d)). split; [|reflexivity].
    apply (record_lookup_consistent (postorder n)).
    - intros a b Ha Hb. apply Hc; rewrite <- postorder_preorder; assumption.
    - rewrite postorder_preorder. exact Hd. }
  destruct (calculateFinalLayout_spec n (preorder n) 0%nat 0
              (set_heights (postorder n) initial_state)) as (m & E & _); [auto|exact Hok|].
  unfold computeLayout, run_passes.
  erewrite bind_Some; [|apply calculateInitialY_spec].
  erewrite bind_Some; [|exact E].
  cbn [ret nodes set_heights initial_state app].
  destruct (Math_max (map x (placed n 0 0))) as [w|] eqn:Ex.
  - eexists. reflexivity.
  - destruct (map x (placed n 0 0)) eqn:Em; [|discriminate].
    apply map_eq_nil in Em. destruct (placed_nonempty _ _ _ Em).
Qed.

Lemma links_of_length ns src :
  (forall c, c ∈ kids (node src) -> exists tgt, tgt ∈ ns /\ node tgt = c) ->
  length (links_of ns src) = length (kids (node src)).
Proof.
  unfold links_of, kids. destruct (children (node src)) as [cs|]; [|reflexivity].
  induction cs as [|c cs IH]; intros Hk; [reflexivity|].
  cbn [flat_map]. rewrite length_app, IH by (intros c' Hc'; apply Hk; right; exact Hc').
  destruct (find_node ns c) as [tgt|] eqn:Ef; [reflexivity|].
  destruct (Hk c) as (tgt & Ht & Nt); [left|].
  pose proof (find_none _ _ Ef tgt (proj1 (list_elem_of_In _ _) Ht)) as Hf.
  unfold same_node in Hf. rewrite Nt, bool_decide_eq_true_2 in Hf by reflexivity. discriminate.
Qed.

Lemma make_links_length n k yo :
  S (length (make_links (placed n k yo))) = countNodes n.
Proof.
  rewrite <- (child_pairs_length n k yo). f_equal.
  unfold make_links, child_pairs. rewrite !length_flat_map. f_equal.
  apply map_ext_in. intros src Hsrc. rewrite length_map.
  apply links_of_length. intros c Hc. apply placed_of_node.
  eapply kids_in_tree; [eapply node_of_placed, list_elem_of_In, Hsrc|exact Hc].
Qed.

Lemma shared_leaf_consistent : consistent shared_leaf.
Proof.
  intros a b Ha Hb E. cbn in Ha, Hb.
  repeat (apply elem_of_cons in Ha as [->|Ha]); [..|inversion Ha];
    repeat (apply elem_of_cons in Hb as [->|Hb]);
    first [reflexivity|discriminate E|inversion Hb].
Qed.

Lemma find_first {A} (f : A -> bool) (l : list A) a :
  List.find f l = Some a ->
  f a = true /\
  exists i, l !! i = Some a /\ forall j b, (j < i)%nat -> l !! j = Some b -> f b = false.
Proof.
  induction l as [|c l IH]; intros H; [discriminate|]. cbn [List.find] in H.
  destruct (f c) eqn:Ec.
  - injection H as <-. split; [exact Ec|]. exists 0%nat. split; [reflexivity|].
    intros j b Hj. lia.
  - destruct (IH H) as (Ha & i & Hi & Hfirst). split; [exact Ha|].
    exists (S i). split; [exact Hi|].
    intros [|j] b Hj Hb; [injection Hb as <-; exact Ec|].
    apply (Hfirst j b); [lia|exact Hb].
Qed.

(** With shared nodes every link ends at the first entry of its child. *)
Lemma links_end_at_first_entry n k yo e :
  consistent n -> e ∈ make_links (placed n k yo) ->
  exists src tgt i,
    src ∈ placed n k yo /\ node tgt ∈ kids (node src) /\ e = edge src tgt /\
    placed n k yo !! i = Some tgt /\
    forall j b, (j < i)%nat -> placed n k yo !! j = Some b -> node b <> node tgt.
Proof.
  intros Hc He. unfold make_links in He.
  apply list_elem_of_In, in_flat_map in He as (src & Hsrc & He).
  apply list_elem_of_In in Hsrc.
  unfold links_of in He. destruct (children (node src)) as [cs|] eqn:Hcs; [|destruct He].
  apply in_flat_map in He as (c & Hcin & He).
  destruct (find_node (placed n k yo) c) as [tgt|] eqn:Ef; [|destruct He].
  destruct He as [<-|[]].
  apply find_first in Ef as (Hsame & i & Hi & Hfirst).
  assert (Hck : c ∈ kids (node src)).
  { unfold kids. rewrite Hcs. apply list_elem_of_In, Hcin. }
  assert (Hct : c ∈ preorder n).
  { eapply kids_in_tree; [eapply node_of_placed, Hsrc|exact Hck]. }
  assert (Nt : node tgt = c).
  { apply Hc; [eapply node_of_placed, list_elem_of_lookup_2, Hi|exact Hct|].
    unfold same_node in Hsame. apply bool_decide_eq_true_1 in Hsame. exact Hsame. }
  exists src, tgt, i. split; [exact Hsrc|]. split; [rewrite Nt; exact Hck|].
  split; [reflexivity|]. split; [exact Hi|].
  intros j b Hj Hb Hn. specialize (Hfirst j b Hj Hb).
  unfold same_node in Hfirst. apply bool_decide_eq_false_1 in Hfirst.
  apply Hfirst. rewrite Hn, Nt. reflexivity.
Qed.

(** X9: when node objects are shared between parents the layout is still
    produced: the node list is the post-order traversal, in which a shared
    node has one entry for every parent; the number of links is the number
    of entries minus one; no two boxes intersect; and every link ends at
    the first entry of its child in the node list, so an entry that repeats
    the node of an earlier entry is the target of no link. *)
Theorem layout_with_shared_nodes (T : MindMapNode) :
  consistent T ->
  exists L,
    computeLayout T = Some L /\
    map node (lay_nodes L) = postorder T /\
    length (lay_nodes L) = countNodes T /\
    S (length (lay_links L)) = countNodes T /\
    (forall i j a b,
        lay_nodes L !! i = Some a -> lay_nodes L !! j = Some b -> i <> j ->
        ~ boxes_intersect a b) /\
    (forall e, e ∈ lay_links L ->
       exists src tgt i,
         src ∈ lay_nodes L /\ node tgt ∈ kids (node src) /\
         e = mkLink (mkPoint (x src + NODE_WIDTH) (y src)) (mkPoint (x tgt) (y tgt)) /\
         lay_nodes L !! i = Some tgt /\
         forall j b, (j < i)%nat -> lay_nodes L !! j = Some b -> node b <> node tgt) /\
    (forall i j a b e,
        (i < j)%nat -> lay_nodes L !! i = Some a -> lay_nodes L !! j = Some b ->
        node a = node b -> e ∈ lay_links L ->
        ~ same_point (target e) (mkPoint (x b) (y b))).
Proof.
  intros Hc. destruct (computeLayout_consistent T Hc) as (w & E).
  eexists. split; [exact E|]. cbn [lay_nodes lay_links].
  split; [apply placed_nodes|]. split.
  { rewrite <- (length_map node), placed_nodes. symmetry. apply countNodes_postorder. }
  split; [apply make_links_length|]. split; [|split].
  - intros i j a b Hi Hj Hij.
    destruct (Nat.lt_total i j) as [H|[H|H]]; [|contradiction|].
    + exact (FOP_lookup apart _ (placed_apart T 0 0) i j a b H Hi Hj).
    + apply apart_sym. exact (FOP_lookup apart _ (placed_apart T 0 0) j i b a H Hj Hi).
  - intros e He. exact (links_end_at_first_entry T 0 0 e Hc He).
  - intros i j a b e Hij Hi Hj Hn He [Hx Hy].
    destruct (links_end_at_first_entry T 0 0 e Hc He)
      as (src & tgt & i0 & _ & _ & -> & Hi0 & Hfirst).
    cbn [edge target px py] in Hx, Hy.
    assert (tgt = b) as ->.
    { apply (placed_same_point T 0%nat 0);
        [eapply list_elem_of_lookup_2, Hi0|eapply list_elem_of_lookup_2, Hj|exact Hx|exact Hy]. }
    destruct (Nat.lt_total i i0) as [H|[H|H]].
    + exact (Hfirst i a H Hi Hn).
    + subst i0. rewrite Hi in Hi0. injection Hi0 as ->.
      pose proof (FOP_lookup apart _ (placed_apart T 0 0) i j b b Hij Hi Hj) as Hap.
      apply Hap. unfold boxes_intersect, box_left, box_right, box_top, box_bottom.
      repeat split; qlra.
    + pose proof (FOP_lookup apart _ (placed_apart T 0 0) i0 j b b ltac:(lia) Hi0 Hj) as Hap.
      apply Hap. unfold boxes_intersect, box_left, box_right, box_top, box_bottom.
      repeat split; qlra.
Qed.

Lemma layout_with_shared_nodes_witness :
  consistent shared_leaf /\ ~ is_tree shared_leaf /\
  exists L,
    computeLayout shared_leaf = Some L /\
    map node (lay_nodes L) = postorder shared_leaf /\
    length (lay_nodes L) = countNodes shared_leaf /\
    S (length (lay_links L)) = countNodes shared_leaf /\
    (forall i j a b,
        lay_nodes L !! i = Some a -> lay_nodes L !! j = Some b -> i <> j ->
        ~ boxes_intersect a b) /\
    (forall e, e ∈ lay_links L ->
       exists src tgt i,
         src ∈ lay_nodes L /\ node tgt ∈ kids (node src) /\
         e = mkLink (mkPoint (x src + NODE_WIDTH) (y src)) (mkPoint (x tgt) (y tgt)) /\
         lay_nodes L !! i = Some tgt /\
         forall j b, (j < i)%nat -> lay_nodes L !! j = Some b -> node b <> node tgt) /\
    (forall i j a b e,
        (i < j)%nat -> lay_nodes L !! i = Some a -> lay_nodes L !! j = Some b ->
        node a = node b -> e ∈ lay_links L ->
        ~ same_point (target e) (mkPoint (x b) (y b))).
Proof.
  split; [exact shared_leaf_consistent|].
  split; [apply (@bool_decide_eq_false_1 (is_tree shared_leaf) _); vm_compute; reflexivity|].
  apply (layout_with_shared_nodes shared_leaf), shared_leaf_consistent.
Defined.

(** ** Panning *)

Lemma pan_moves_idle clampLeft clampTop evs : forall s,
  Forall is_move evs -> isPanning s = false ->
  pan_run clampLeft clampTop evs s = s.
Proof.
  induction evs as [|ev evs IH]; intros s Hm Hs; [reflexivity|].
  apply Forall_cons in Hm as [Hev Hm]. destruct ev; try contradiction.
  unfold pan_run. cbn [fold_left pan_step]. unfold handleMouseMove. rewrite Hs.
  apply IH; assumption.
Qed.

Lemma dragging_moves clampLeft clampTop c0 e0 evs : forall s,
  Forall is_move evs -> dragging c0 e0 s ->
  dragging c0 e0 (pan_run clampLeft clampTop evs s).
Proof.
  induction evs as [|ev evs IH]; intros s Hm Hs; [exact Hs|].
  apply Forall_cons in Hm as [Hev Hm]. destruct ev; try contradiction.
  unfold pan_run. cbn [fold_left pan_step]. apply IH; [exact Hm|].
  destruct Hs as (Hp & Hx & Hy & Hl & Ht & c & Hc & Ol & Ot & Cu & Us).
  unfold handleMouseMove. rewrite Hp, Hc. cbn [fst]. unfold dragging.
  cbn [isPanning startX startY scrollLeftStart scrollTopStart scrollContainer].
  do 5 (split; [first [assumption|reflexivity]|]). eexists. split; [reflexivity|].
  cbn [offsetLeft offsetTop cursor userSelect]. auto.
Qed.

Lemma cursor_tracks_drag_step clampLeft clampTop s ev :
  cursor_tracks_drag s -> cursor_tracks_drag (pan_step clampLeft clampTop s ev).
Proof.
  intros (c & Hc & Hcur & Hsel). unfold cursor_tracks_drag.
  destruct ev as [e| | |e]; cbn [pan_step].
  - unfold handleMouseDown. rewrite Hc. eexists. split; [reflexivity|].
    cbn [isPanning cursor userSelect]. split; split; reflexivity.
  - unfold handleMouseUpAndLeave. rewrite Hc. eexists. split; [reflexivity|].
    cbn [isPanning cursor userSelect]. split; split; discriminate.
  - unfold handleMouseUpAndLeave. rewrite Hc. eexists. split; [reflexivity|].
    cbn [isPanning cursor userSelect]. split; split; discriminate.
  - unfold handleMouseMove. rewrite Hc. destruct (isPanning s) eqn:Hp; cbn [fst].
    + eexists. split; [reflexivity|]. cbn [isPanning cursor userSelect]. auto.
    + exists c. rewrite Hp. auto.
Qed.

Lemma int_within_sub b1 b2 a c :
  int_within b1 a -> int_within b2 c -> int_within (b1 + b2) (a - c).
Proof.
  intros (za & Ha & Ba) (zc & Hc & Bc). exists (za - zc)%Z. split; [|lia].
  rewrite Ha, Hc. unfold Qeq, Qminus, Qplus, Qopp, inject_Z. cbn. lia.
Qed.

Lemma int_within_le b1 b2 a : (b1 <= b2)%Z -> int_within b1 a -> int_within b2 a.
Proof. intros Hle (z & Hz & Bz). exists z. split; [exact Hz|lia]. Qed.

Lemma axis_exact_small page0 page offset scrollStart :
  small_integer page0 -> small_integer page -> small_integer offset ->
  small_integer scrollStart ->
  axis_exact page0 page offset scrollStart.
Proof.
  unfold small_integer, axis_exact, exact_sub, safe_integer, MAX_SAFE_INTEGER.
  intros H0 H1 Ho Hs.
  pose proof (int_within_sub _ _ _ _ H0 Ho) as Hx0.
  pose proof (int_within_sub _ _ _ _ H1 Ho) as Hx.
  pose proof (int_within_sub _ _ _ _ Hx Hx0) as Hw.
  pose proof (int_within_sub _ _ _ _ Hs Hw) as Hv.
  repeat split; eapply int_within_le; try eassumption; lia.
Qed.

(** X10: once the mouse is released or has left the container, mouse moves
    change nothing (scroll position, cursor, refs) and none of them calls
    [preventDefault], however many there are. *)
Theorem moves_after_release_do_nothing
        (clampLeft clampTop : Q -> Q) (s : PanState) (evs : list PanEvent) :
  Forall is_move evs ->
  pan_run clampLeft clampTop evs (handleMouseUpAndLeave s) = handleMouseUpAndLeave s /\
  forall e, snd (handleMouseMove clampLeft clampTop e (handleMouseUpAndLeave s)) = false.
Proof.
  intros Hm. split; [apply pan_moves_idle; [exact Hm|reflexivity]|]. reflexivity.
Qed.

Lemma moves_after_release_do_nothing_witness :
  Forall is_move [MouseMove (mkMouseEvent 5 7); MouseMove (mkMouseEvent 9 1)] /\
  pan_run (clamp_to 500) (clamp_to 300)
          [MouseMove (mkMouseEvent 5 7); MouseMove (mkMouseEvent 9 1)]
          (handleMouseUpAndLeave (pan_mounted (mkContainer 0 0 30 40 "" "")))
  = handleMouseUpAndLeave (pan_mounted (mkContainer 0 0 30 40 "" "")).
Proof.
  assert (H : Forall is_move [MouseMove (mkMouseEvent 5 7); MouseMove (mkMouseEvent 9 1)]).
  { repeat constructor. }
  split; [exact H|].
  exact (proj1 (moves_after_release_do_nothing (clamp_to 500) (clamp_to 300)
                  (pan_mounted (mkContainer 0 0 30 40 "" "")) _ H)).
Defined.

(** X11: on whole-number coordinates a drag scrolls by the distance between
    the press and the latest move, whatever moves came in between.  When the
    page coordinates of the press [e0] and of the move [e], the offsets of the
    container and its scroll position at the press are whole numbers of
    magnitude at most 2^50, every subtraction of the handlers is exact in
    doubles, and after pressing at [e0] on a mounted container and any run of
    moves ending at [e] the scroll position assigned is the one at the press
    minus [e - e0], and the grabbing cursor is still shown.  (On fractional
    coordinates the offsets need not cancel in doubles.) *)
Theorem drag_scrolls_by_pointer_distance
        (clampLeft clampTop : Q -> Q)
        (c0 : Container) (e0 e : MouseEvent) (s : PanState) (evs : list PanEvent) :
  scrollContainer s = Some c0 -> Forall is_move evs ->
  small_integer (pageX e0) -> small_integer (pageY e0) ->
  small_integer (pageX e) -> small_integer (pageY e) ->
  small_integer (offsetLeft c0) -> small_integer (offsetTop c0) ->
  small_integer (scrollLeft c0) -> small_integer (scrollTop c0) ->
  axis_exact (pageX e0) (pageX e) (offsetLeft c0) (scrollLeft c0) /\
  axis_exact (pageY e0) (pageY e) (offsetTop c0) (scrollTop c0) /\
  exists c vx vy,
    scrollContainer (pan_run clampLeft clampTop (MouseDown e0 :: evs ++ [MouseMove e]) s)
    = Some c /\
    scrollLeft c = clampLeft vx /\
    vx = scrollLeft c0 - ((pageX e - offsetLeft c0) - (pageX e0 - offsetLeft c0)) /\
    vx == scrollLeft c0 - (pageX e - pageX e0) /\
    scrollTop c = clampTop vy /\
    vy = scrollTop c0 - ((pageY e - offsetTop c0) - (pageY e0 - offsetTop c0)) /\
    vy == scrollTop c0 - (pageY e - pageY e0) /\
    cursor c = "grabbing" /\
    isPanning (pan_run clampLeft clampTop (MouseDown e0 :: evs ++ [MouseMove e]) s) = true.
Proof.
  intros Hc Hm Hx0 Hy0 Hx1 Hy1 Hol Hot Hsl Hst.
  split; [apply axis_exact_small; assumption|].
  split; [apply axis_exact_small; assumption|].
  assert (Hd : dragging c0 e0 (handleMouseDown e0 s)).
  { unfold handleMouseDown. rewrite Hc. unfold dragging.
    cbn [isPanning startX startY scrollLeftStart scrollTopStart scrollContainer].
    do 5 (split; [reflexivity|]). eexists. split; [reflexivity|]. repeat split. }
  pose proof (dragging_moves clampLeft clampTop c0 e0 evs _ Hm Hd) as Hd'.
  unfold pan_run in *. cbn [fold_left pan_step]. rewrite fold_left_app.
  set (s1 := fold_left (pan_step clampLeft clampTop) evs (handleMouseDown e0 s)) in *.
  destruct Hd' as (Hp & Hx & Hy & Hl & Ht & c & Hc1 & Ol & Ot & Cu & Us).
  cbn [fold_left pan_step]. unfold handleMouseMove. rewrite Hp, Hc1.
  cbn [fst scrollContainer isPanning].
  eexists _, _, _. split; [reflexivity|]. cbn [scrollLeft scrollTop cursor].
  split; [reflexivity|]. split; [rewrite Hl, Hx, Ol; reflexivity|].
  split; [rewrite Hl, Hx, Ol; lra|].
  split; [reflexivity|]. split; [rewrite Ht, Hy, Ot; reflexivity|].
  split; [rewrite Ht, Hy, Ot; lra|]. split; [exact Cu|reflexivity].
Qed.

Lemma drag_scrolls_by_pointer_distance_witness :
  axis_exact 100 70 8 30 /\
  axis_exact 100 130 16 40 /\
  exists c vx vy,
    scrollContainer
      (pan_run (clamp_to 500) (clamp_to 300)
               (MouseDown (mkMouseEvent 100 100)
                  :: [MouseMove (mkMouseEvent 120 90)] ++ [MouseMove (mkMouseEvent 70 130)])
               (pan_mounted (mkContainer 8 16 30 40 "" "")))
    = Some c /\
    scrollLeft c = clamp_to 500 vx /\
    vx = 30 - ((70 - 8) - (100 - 8)) /\
    vx == 30 - (70 - 100) /\
    scrollTop c = clamp_to 300 vy /\
    vy = 40 - ((130 - 16) - (100 - 16)) /\
    vy == 40 - (130 - 100) /\
    cursor c = "grabbing" /\
    isPanning
      (pan_run (clamp_to 500) (clamp_to 300)
               (MouseDown (mkMouseEvent 100 100)
                  :: [MouseMove (mkMouseEvent 120 90)] ++ [MouseMove (mkMouseEvent 70 130)])
               (pan_mounted (mkContainer 8 16 30 40 "" ""))) = true.
Proof.
  apply (drag_scrolls_by_pointer_distance (clamp_to 500) (clamp_to 300)
           (mkContainer 8 16 30 40 "" "") (mkMouseEvent 100 100) (mkMouseEvent 70 130)
           (pan_mounted (mkContainer 8 16 30 40 "" "")) [MouseMove (mkMouseEvent 120 90)]).
  - reflexivity.
  - repeat constructor.
  - exists 100%Z. split; [reflexivity|cbn; lia].
  - exists 100%Z. split; [reflexivity|cbn; lia].
  - exists 70%Z. split; [reflexivity|cbn; lia].
  - exists 130%Z. split; [reflexivity|cbn; lia].
  - exists 8%Z. split; [reflexivity|cbn; lia].
  - exists 16%Z. split; [reflexivity|cbn; lia].
  - exists 30%Z. split; [reflexivity|cbn; lia].
  - exists 40%Z. split; [reflexivity|cbn; lia].
Defined.

(** X12: on a mounted container whose inline cursor is not yet "grabbing",
    after any sequence of presses, releases, leaves and moves the grabbing
    cursor and the suppressed text selection are in force exactly while
    [isPanning] is set. *)
Theorem grabbing_cursor_iff_panning
        (clampLeft clampTop : Q -> Q) (c0 : Container) (evs : list PanEvent) :
  cursor c0 <> "grabbing" -> userSelect c0 <> "none" ->
  cursor_tracks_drag (pan_run clampLeft clampTop evs (pan_mounted c0)).
Proof.
  intros Hcur Hsel.
  assert (H0 : cursor_tracks_drag (pan_mounted c0)).
  { exists c0. split; [reflexivity|]. cbn [isPanning pan_mounted].
    split; split; first [discriminate|contradiction]. }
  revert H0. generalize (pan_mounted c0). unfold pan_run.
  induction evs as [|ev evs IH]; intros s Hs; [exact Hs|].
  cbn [fold_left]. apply IH, cursor_tracks_drag_step, Hs.
Qed.

Lemma grabbing_cursor_iff_panning_witness :
  cursor_tracks_drag
    (pan_run (clamp_to 500) (clamp_to 300)
             [MouseDown (mkMouseEvent 1 1); MouseMove (mkMouseEvent 4 4); MouseLeave;
              MouseMove (mkMouseEvent 9 9)]
             (pan_mounted (mkContainer 8 16 30 40 "" ""))).
Proof.
  apply (grabbing_cursor_iff_panning (clamp_to 500) (clamp_to 300)
           (mkContainer 8 16 30 40 "" "")); discriminate.
Defined.

(** ** The library *)

Section LibraryFacts.
Variable STORAGE_LIMIT_BYTES : nat.
Variable t : string -> string.
Variable JSON_stringify : list LibraryItem -> string.
Variable byteLength : string -> nat.
Variable Number_toString : Z -> string.

Lemma add_keeps_role d n1 n2 st :
  userRole (addToLibrary STORAGE_LIMIT_BYTES t JSON_stringify byteLength Number_toString
                         d n1 n2 st) = userRole st.
Proof.
  unfold addToLibrary. destruct (getLibraryStorageKey st); [|reflexivity].
  cbv zeta. destruct (_ <? _)%nat; reflexivity.
Qed.

Lemma in_sync_step st op :
  in_sync JSON_stringify byteLength st ->
  in_sync JSON_stringify byteLength
          (library_step STORAGE_LIMIT_BYTES t JSON_stringify byteLength Number_toString st op).
Proof.
  intros (key & Hk & Hs & Hu). unfold in_sync.
  destruct op as [d n1 n2|id]; cbn [library_step].
  - unfold addToLibrary. rewrite Hk. cbv zeta.
    destruct (_ <? _)%nat.
    + exists key. unfold getLibraryStorageKey in *. cbn [userRole library localStorage
                                                        libraryUsage_used]. auto.
    + exists key. unfold getLibraryStorageKey in *.
      cbn [userRole library localStorage libraryUsage_used].
      split; [exact Hk|]. split; [apply lookup_insert_eq|reflexivity].
  - unfold removeFromLibrary. rewrite Hk. cbv zeta.
    exists key. unfold getLibraryStorageKey in *.
    cbn [userRole library localStorage libraryUsage_used].
    split; [exact Hk|]. split; [apply lookup_insert_eq|reflexivity].
Qed.

Lemma filter_other_ids id (l : list LibraryItem) :
  Forall (fun item => item_id item <> id) l ->
  List.filter (fun item => negb (String.eqb (item_id item) id)) l = l.
Proof.
  induction 1 as [|a l Ha _ IH]; [reflexivity|].
  cbn [List.filter]. apply String.eqb_neq in Ha. rewrite Ha, IH. reflexivity.
Qed.

End LibraryFacts.

(** X13: once [localStorage] holds the serialised library and the usage is
    its byte size, every sequence of [addToLibrary] and [removeFromLibrary]
    calls keeps it so, whether an addition is stored or refused. *)
Theorem library_stays_in_sync
        (STORAGE_LIMIT_BYTES : nat) (t : string -> string)
        (JSON_stringify : list LibraryItem -> string) (byteLength : string -> nat)
        (Number_toString : Z -> string) (ops : list LibraryOp) (st : AppState) :
  in_sync JSON_stringify byteLength st ->
  in_sync JSON_stringify byteLength
          (fold_left (library_step STORAGE_LIMIT_BYTES t JSON_stringify byteLength
                                   Number_toString) ops st).
Proof.
  revert st. induction ops as [|op ops IH]; intros st Hs; [exact Hs|].
  cbn [fold_left]. apply IH, in_sync_step, Hs.
Qed.

Lemma empty_student_in_sync stringify byteLength :
  in_sync stringify byteLength (empty_student stringify byteLength).
Proof.
  exists "triVietLibrary_student"%string. split; [reflexivity|].
  split; [apply lookup_singleton_eq|reflexivity].
Qed.

Lemma library_stays_in_sync_witness :
  in_sync (fun _ => "[]"%string) String.length
          (fold_left (library_step 1000 (fun k => k) (fun _ => "[]"%string) String.length
                                   (fun _ => "0"%string))
                     [OpAdd (mkItemData "a" EXAM (ContentString "b")) 0 0; OpRemove "0"]
                     (empty_student (fun _ => "[]"%string) String.length)).
Proof.
  apply (library_stays_in_sync 1000 (fun k => k) (fun _ => "[]"%string) String.length
                               (fun _ => "0"%string)).
  apply empty_student_in_sync.
Defined.

(** X14: [addToLibrary] never stores more than the limit: if the usage and
    the string stored under the role's key are within
    [STORAGE_LIMIT_BYTES], they still are after any sequence of additions. *)
Theorem additions_respect_limit
        (STORAGE_LIMIT_BYTES : nat) (t : string -> string)
        (JSON_stringify : list LibraryItem -> string) (byteLength : string -> nat)
        (Number_toString : Z -> string)
        (adds : list (ItemData * Z * Z)) (key : string) (st : AppState) :
  getLibraryStorageKey st = Some key ->
  within_limit STORAGE_LIMIT_BYTES byteLength key st ->
  within_limit STORAGE_LIMIT_BYTES byteLength key
    (fold_left (fun s a => addToLibrary STORAGE_LIMIT_BYTES t JSON_stringify byteLength
                                        Number_toString (fst (fst a)) (snd (fst a)) (snd a) s)
               adds st).
Proof.
  revert st. induction adds as [|[[d n1] n2] adds IH]; intros st Hk Hw; [exact Hw|].
  cbn [fold_left fst snd]. apply IH.
  - unfold getLibraryStorageKey in *. rewrite add_keeps_role. exact Hk.
  - unfold addToLibrary. rewrite Hk. cbv zeta.
    destruct (_ <? _)%nat eqn:El.
    + exact Hw.
    + apply Nat.ltb_ge in El. unfold within_limit.
      cbn [libraryUsage_used localStorage]. split; [exact El|].
      intros v Hv. rewrite lookup_insert_eq in Hv. injection Hv as <-. exact El.
Qed.

Lemma additions_respect_limit_witness :
  within_limit 1000 String.length "triVietLibrary_student"
    (fold_left (fun s a => addToLibrary 1000 (fun k => k) (fun _ => "[]"%string) String.length
                                        (fun _ => "0"%string)
                                        (fst (fst a)) (snd (fst a)) (snd a) s)
               [(mkItemData "a" EXAM (ContentString "b"), 0%Z, 0%Z)]
               (empty_student (fun _ => "[]"%string) String.length)).
Proof.
  apply (additions_respect_limit 1000 (fun k => k) (fun _ => "[]"%string) String.length
                                 (fun _ => "0"%string)).
  - reflexivity.
  - split; [cbn; lia|]. intros v Hv.
    unfold empty_student in Hv. cbn [localStorage] in Hv.
    rewrite lookup_singleton_eq in Hv. injection Hv as <-. cbn. lia.
Defined.

(** X15: when [localStorage] and the usage are in sync with the library,
    adding an item and then removing it by its id restores the whole state:
    the library, the stored string, the usage and the alerts are exactly as
    before, provided the addition fits the limit and no older item has the
    same id (ids are the clock reading at the time of adding). *)
Theorem add_then_remove_restores
        (STORAGE_LIMIT_BYTES : nat) (t : string -> string)
        (JSON_stringify : list LibraryItem -> string) (byteLength : string -> nat)
        (Number_toString : Z -> string)
        (d : ItemData) (now_id now_ts : Z) (st : AppState) :
  in_sync JSON_stringify byteLength st ->
  Forall (fun item => item_id item <> Number_toString now_id) (library st) ->
  (byteLength (JSON_stringify
                 (mkItem (Number_toString now_id) (data_name d) (data_type d)
                         (data_content d) now_ts :: library st))
   <= STORAGE_LIMIT_BYTES)%nat ->
  removeFromLibrary JSON_stringify byteLength (Number_toString now_id)
    (addToLibrary STORAGE_LIMIT_BYTES t JSON_stringify byteLength Number_toString
                  d now_id now_ts st)
  = st.
Proof.
  intros (key & Hk & Hs & Hu) Hfresh Hfit.
  unfold addToLibrary. rewrite Hk. cbv zeta.
  apply Nat.ltb_ge in Hfit. rewrite Hfit.
  unfold removeFromLibrary, getLibraryStorageKey in *. cbn [userRole library]. rewrite Hk.
  cbn [library localStorage libraryUsage_used alerts List.filter item_id].
  rewrite String.eqb_refl. cbn [negb]. rewrite (filter_other_ids _ _ Hfresh).
  rewrite insert_insert_eq, (insert_id _ _ _ Hs), <- Hu.
  destruct st. reflexivity.
Qed.

Lemma add_then_remove_restores_witness :
  removeFromLibrary (fun _ => "[]"%string) String.length "0"
    (addToLibrary 1000 (fun k => k) (fun _ => "[]"%string) String.length
                  (fun _ => "0"%string)
                  (mkItemData "a" EXAM (ContentString "b")) 0 0
                  (empty_student (fun _ => "[]"%string) String.length))
  = empty_student (fun _ => "[]"%string) String.length.
Proof.
  apply (add_then_remove_restores 1000 (fun k => k) (fun _ => "[]"%string)
           String.length (fun _ => "0"%string)
           (mkItemData "a" EXAM (ContentString "b")) 0 0
           (empty_student (fun _ => "[]"%string) String.length)).
  - apply empty_student_in_sync.
  - constructor.
  - cbn. lia.
Defined.

(** X16: a mind map saved from the summarizer is shown as a mind map in the
    library: with a role chosen and room in the storage, [handleSave] puts
    one item in front of the library, named after the file or else the
    root's title, [renderItemContent] shows it with [MindMapComponent] on
    the very mind map saved, and for a tree the layout effect then sets a
    layout with one entry per node; without a mind map [handleSave] changes
    nothing. *)
Theorem saved_mind_map_is_viewed
        (STORAGE_LIMIT_BYTES : nat) (t : string -> string)
        (JSON_stringify : list LibraryItem -> string) (byteLength : string -> nat)
        (Number_toString : Z -> string)
        (m : MindMapNode) (fileName : string) (now_id now_ts : Z)
        (key : string) (st : AppState) :
  let item :=
    mkItem (Number_toString now_id)
           (t "summary" ++ " - " ++ (if String.eqb fileName "" then title m else fileName))
           SUMMARY (ContentObject (Some m)) now_ts in
  getLibraryStorageKey st = Some key ->
  (byteLength (JSON_stringify (item :: library st)) <= STORAGE_LIMIT_BYTES)%nat ->
  library (handleSave STORAGE_LIMIT_BYTES t JSON_stringify byteLength Number_toString
                      (Some m) fileName now_id now_ts st)
  = item :: library st /\
  renderItemContent item = MindMapView m /\
  (is_tree m ->
   exists L, layoutEffect (Some m) = SetLayout L /\ length (lay_nodes L) = countNodes m) /\
  handleSave STORAGE_LIMIT_BYTES t JSON_stringify byteLength Number_toString
             None fileName now_id now_ts st = st.
Proof.
  intros item Hk Hfit. subst item.
  split; [|split; [reflexivity|split; [|reflexivity]]].
  - unfold handleSave, addToLibrary. rewrite Hk. cbv zeta.
    cbn [data_name data_type data_content].
    apply Nat.ltb_ge in Hfit. rewrite Hfit. reflexivity.
  - intros Ht. destruct (computeLayout_spec m Ht) as (w & E).
    unfold layoutEffect. rewrite E. eexists. split; [reflexivity|].
    cbn [lay_nodes]. rewrite <- (length_map node), placed_nodes. symmetry.
    apply countNodes_postorder.
Qed.

Lemma saved_mind_map_is_viewed_witness :
  library (handleSave 1000 (fun k => k) (fun _ => "[]"%string) String.length
                      (fun _ => "0"%string)
                      (Some sample_tree) "notes.pdf" 0 0
                      (empty_student (fun _ => "[]"%string) String.length))
  = [mkItem "0" "summary - notes.pdf" SUMMARY (ContentObject (Some sample_tree)) 0] /\
  renderItemContent
    (mkItem "0" "summary - notes.pdf" SUMMARY (ContentObject (Some sample_tree)) 0)
  = MindMapView sample_tree.
Proof.
  destruct (saved_mind_map_is_viewed 1000 (fun k => k) (fun _ => "[]"%string)
              String.length (fun _ => "0"%string) sample_tree "notes.pdf" 0 0
              "triVietLibrary_student"
              (empty_student (fun _ => "[]"%string) String.length)
              eq_refl ltac:(cbn; lia))
    as (E & R & _).
  split; [exact E|exact R].
Defined.

(** X17: items added within the same millisecond share their id, and
    removing by that id removes them together: after two additions with the
    same clock reading for the id, one [removeFromLibrary] leaves the
    library as it was before both, provided both additions fit the limit
    and no older item has that id. *)
Theorem same_id_items_removed_together
        (STORAGE_LIMIT_BYTES : nat) (t : string -> string)
        (JSON_stringify : list LibraryItem -> string) (byteLength : string -> nat)
        (Number_toString : Z -> string)
        (d1 d2 : ItemData) (now_id ts1 ts2 : Z) (key : string) (st : AppState) :
  let add := addToLibrary STORAGE_LIMIT_BYTES t JSON_stringify byteLength Number_toString in
  let item1 := mkItem (Number_toString now_id) (data_name d1) (data_type d1)
                      (data_content d1) ts1 in
  let item2 := mkItem (Number_toString now_id) (data_name d2) (data_type d2)
                      (data_content d2) ts2 in
  getLibraryStorageKey st = Some key ->
  Forall (fun item => item_id item <> Number_toString now_id) (library st) ->
  (byteLength (JSON_stringify (item1 :: library st)) <= STORAGE_LIMIT_BYTES)%nat ->
  (byteLength (JSON_stringify (item2 :: item1 :: library st)) <= STORAGE_LIMIT_BYTES)%nat ->
  library (add d2 now_id ts2 (add d1 now_id ts1 st)) = item2 :: item1 :: library st /\
  library (removeFromLibrary JSON_stringify byteLength (Number_toString now_id)
             (add d2 now_id ts2 (add d1 now_id ts1 st)))
  = library st.
Proof.
  intros add item1 item2 Hk Hfresh Hfit1 Hfit2. subst add item1 item2.
  apply Nat.ltb_ge in Hfit1, Hfit2.
  unfold addToLibrary at 2 4. rewrite Hk. cbv zeta. rewrite Hfit1.
  unfold addToLibrary, getLibraryStorageKey in *. cbn [userRole library]. rewrite Hk.
  cbv zeta. rewrite Hfit2. cbn [library]. split; [reflexivity|].
  unfold removeFromLibrary, getLibraryStorageKey. cbn [userRole library]. rewrite Hk.
  cbn [library List.filter item_id]. rewrite String.eqb_refl. cbn [negb].
  apply filter_other_ids, Hfresh.
Qed.

Lemma same_id_items_removed_together_witness :
  library
    (removeFromLibrary (fun _ => "[]"%string) String.length "0"
       (addToLibrary 1000 (fun k => k) (fun _ => "[]"%string) String.length
                     (fun _ => "0"%string) (mkItemData "b" EXAM (ContentString "c")) 0 2
          (addToLibrary 1000 (fun k => k) (fun _ => "[]"%string) String.length
                        (fun _ => "0"%string) (mkItemData "a" EXAM (ContentString "b")) 0 1
                        (empty_student (fun _ => "[]"%string) String.length))))
  = [].
Proof.
  refine (proj2 (same_id_items_removed_together 1000 (fun k => k) (fun _ => "[]"%string)
                   String.length (fun _ => "0"%string)
                   (mkItemData "a" EXAM (ContentString "b"))
                   (mkItemData "b" EXAM (ContentString "c")) 0 1 2 "triVietLibrary_student"
                   (empty_student (fun _ => "[]"%string) String.length) _ _ _ _)).
  - reflexivity.
  - constructor.
  - cbn. lia.
  - cbn. lia.
Defined.

(** ** Order of appearance *)

Lemma occurs_before_app {A} (p l q : list A) a b :
  occurs_before l a b -> occurs_before (p ++ l ++ q) a b.
Proof.
  intros (l1 & l2 & l3 & ->). exists (p ++ l1), l2, (l3 ++ q).
  rewrite <- !app_assoc. simpl. rewrite <- !app_assoc. reflexivity.
Qed.

Lemma postorder_self n : n ∈ postorder n.
Proof. rewrite postorder_preorder. apply preorder_self. Qed.

Lemma child_before_parent n : forall P C,
  P ∈ preorder n -> C ∈ kids P -> occurs_before (postorder n) C P.
Proof.
  induction n as [r t ch IH] using tree_ind. intros P C HP HC.
  cbn [preorder] in HP. apply elem_of_cons in HP as [->|HP].
  - unfold kids in HC. cbn [children] in HC. destruct ch as [cs|]; [|inversion HC].
    cbn [postorder].
    assert (Hin : C ∈ concat (map postorder cs)).
    { apply list_elem_of_In, in_concat. exists (postorder C).
      split; [apply in_map, list_elem_of_In, HC|apply list_elem_of_In, postorder_self]. }
    apply list_elem_of_split in Hin as (l1 & l2 & ->).
    exists l1, l2, []. rewrite <- app_assoc. reflexivity.
  - destruct ch as [cs|]; [|inversion HP].
    specialize (IH _ eq_refl). cbn [postorder].
    apply list_elem_of_In, in_concat in HP as (l & Hl & HPl).
    apply in_map_iff in Hl as (c & <- & Hc).
    rewrite List.Forall_forall in IH.
    pose proof (IH c Hc P C (proj2 (list_elem_of_In _ _) HPl) HC) as Hb.
    apply in_split in Hc as (cs1 & cs2 & ->).
    rewrite map_app, concat_app. cbn [map concat]. rewrite <- !app_assoc.
    apply occurs_before_app. exact Hb.
Qed.

Lemma NoDup_of_map {A B} (f : A -> B) (l : list A) : NoDup (map f l) -> NoDup l.
Proof.
  induction l as [|a l IH]; intros H; [constructor|].
  simpl in H. apply NoDup_cons in H as [Hn H]. apply NoDup_cons. split; [|apply IH, H].
  intros Hin. apply Hn, list_elem_of_In, in_map, list_elem_of_In, Hin.
Qed.

Lemma occurs_before_index {A} (l : list A) a b i j :
  NoDup l -> occurs_before l a b -> l !! i = Some a -> l !! j = Some b -> (i < j)%nat.
Proof.
  intros Hnd (l1 & l2 & l3 & ->) Hi Hj.
  assert (Ei : i = length l1).
  { apply (NoDup_lookup _ i (length l1) a Hnd Hi).
    rewrite lookup_app_r by lia. rewrite Nat.sub_diag. reflexivity. }
  assert (Ej : j = (length l1 + S (length l2))%nat).
  { apply (NoDup_lookup _ j (length l1 + S (length l2)) b Hnd Hj).
    rewrite lookup_app_r by lia.
    replace (length l1 + S (length l2) - length l1)%nat with (S (length l2)) by lia.
    change ((a :: l2 ++ b :: l3) !! S (length l2)) with ((l2 ++ b :: l3) !! length l2).
    rewrite lookup_app_r by lia. rewrite Nat.sub_diag. reflexivity. }
  lia.
Qed.

(** X18: for every input tree, every node comes later in the node list than
    each of its children, so its entrance animation starts at least 50 ms
    after theirs; the root is the last entry. *)
Theorem children_appear_before_parent (T : MindMapNode) :
  is_tree T ->
  exists L,
    computeLayout T = Some L /\
    (forall i j a b,
        lay_nodes L !! i = Some a -> lay_nodes L !! j = Some b ->
        node b ∈ kids (node a) ->
        (node_animation_delay j + 50 <= node_animation_delay i)%nat) /\
    (exists a, lay_nodes L !! (countNodes T - 1)%nat = Some a /\ node a = T).
Proof.
  intros Ht. destruct (computeLayout_spec T Ht) as (w & E).
  eexists. split; [exact E|]. cbn [lay_nodes]. split.
  - intros i j a b Hi Hj Hk.
    assert (Hnd : NoDup (postorder T)).
    { apply (NoDup_of_map ref), is_tree_postorder, Ht. }
    assert (j < i)%nat; [|unfold node_animation_delay; lia].
    apply (occurs_before_index (postorder T) (node b) (node a) j i Hnd).
    + apply child_before_parent; [|exact Hk].
      eapply node_of_placed, list_elem_of_lookup_2, Hi.
    + rewrite <- (placed_nodes T 0 0). apply map_lookup, Hj.
    + rewrite <- (placed_nodes T 0 0). apply map_lookup, Hi.
  - exists (mkLayoutNode T (Qlevel 0 * HORIZONTAL_SEPARATION) (centerY T 0) 0).
    split; [|reflexivity].
    rewrite countNodes_postorder, <- (placed_nodes T 0 0), length_map.
    destruct T as [r t ch]. cbn [placed]. rewrite length_app. cbn [length].
    rewrite lookup_app_r by lia.
    replace (_ + 1 - 1 - _)%nat with 0%nat by lia. reflexivity.
Qed.

Lemma children_appear_before_parent_witness :
  is_tree sample_tree /\
  exists L,
    computeLayout sample_tree = Some L /\
    (forall i j a b,
        lay_nodes L !! i = Some a -> lay_nodes L !! j = Some b ->
        node b ∈ kids (node a) ->
        (node_animation_delay j + 50 <= node_animation_delay i)%nat) /\
    (exists a, lay_nodes L !! (countNodes sample_tree - 1)%nat = Some a /\
               node a = sample_tree).
Proof.
  split; [exact sample_is_tree|].
  apply (children_appear_before_parent sample_tree), sample_is_tree.
Defined.

(** ** Localised strings and reloading *)

Lemma truthy_Some v s : truthy v = Some s -> v = Some s /\ s <> ""%string.
Proof.
  destruct v as [u|]; [|discriminate]. cbn [truthy].
  destruct (String.eqb u "") eqn:E; [discriminate|].
  intros H. injection H as <-. apply String.eqb_neq in E. auto.
Qed.

Lemma truthy_nonempty s : s <> ""%string -> truthy (Some s) = Some s.
Proof. intros H. cbn [truthy]. apply String.eqb_neq in H. rewrite H. reflexivity. Qed.

Lemma truthy_value_own (table : gmap string string) has key v :
  has key = false ->
  truthy_value (table_get has table key) = Some v ->
  exists s, v = TString s /\ table !! key = Some s /\ s <> ""%string.
Proof.
  intros Hh. unfold table_get. rewrite Hh.
  destruct (table !! key) as [u|]; [|discriminate]. cbn [truthy_value].
  destruct (String.eqb u "") eqn:E; [discriminate|].
  intros [= <-]. exists u. apply String.eqb_neq in E. auto.
Qed.

Lemma truthy_value_entry (table : gmap string string) has key u :
  table !! key = Some u -> u <> ""%string ->
  truthy_value (table_get has table key) = Some (TString u).
Proof.
  intros Hu Hne. unfold table_get. rewrite Hu. cbn [truthy_value].
  apply String.eqb_neq in Hne. rewrite Hne. reflexivity.
Qed.

Lemma truthy_value_inherited (table : gmap string string) has key :
  table !! key = None -> has key = true ->
  truthy_value (table_get has table key) = Some (TInherited key).
Proof. intros Hn Hh. unfold table_get. rewrite Hn, Hh. reflexivity. Qed.



(** X20: reloading a library that is in sync with [localStorage] changes
    nothing, provided the stored string is not empty and [JSON.parse] gives
    back the library that [JSON.stringify] serialised. *)
Theorem reload_keeps_library
        (JSON_stringify : list LibraryItem -> string)
        (JSON_parse : string -> option (list LibraryItem))
        (byteLength : string -> nat) (st : AppState) :
  in_sync JSON_stringify byteLength st ->
  JSON_stringify (library st) <> ""%string ->
  JSON_parse (JSON_stringify (library st)) = Some (library st) ->
  loadLibrary JSON_parse byteLength st = st.
Proof.
  intros (key & Hk & Hs & Hu) Hne Hparse.
  unfold loadLibrary. rewrite Hk, Hs, (truthy_nonempty _ Hne), Hparse, <- Hu.
  destruct st. reflexivity.
Qed.

Lemma reload_keeps_library_witness :
  loadLibrary (fun _ => Some []) String.length
              (empty_student (fun _ => "[]"%string) String.length)
  = empty_student (fun _ => "[]"%string) String.length.
Proof.
  apply (reload_keeps_library (fun _ => "[]"%string) (fun _ => Some []) String.length).
  - apply empty_student_in_sync.
  - discriminate.
  - reflexivity.
Defined.

(** X21: a stored library that does not parse is shown as empty with usage
    0 while the stored string is left in place, and the next addition that
    fits the limit replaces that string by a library holding the new item
    only. *)
Theorem unparsable_library_is_replaced
        (STORAGE_LIMIT_BYTES : nat) (t : string -> string)
        (JSON_stringify : list LibraryItem -> string)
        (JSON_parse : string -> option (list LibraryItem))
        (byteLength : string -> nat) (Number_toString : Z -> string)
        (d : ItemData) (now_id now_ts : Z) (key savedData : string) (st : AppState) :
  let item := mkItem (Number_toString now_id) (data_name d) (data_type d)
                     (data_content d) now_ts in
  let loaded := loadLibrary JSON_parse byteLength st in
  getLibraryStorageKey st = Some key ->
  localStorage st !! key = Some savedData ->
  savedData <> ""%string ->
  JSON_parse savedData = None ->
  (byteLength (JSON_stringify [item]) <= STORAGE_LIMIT_BYTES)%nat ->
  library loaded = [] /\ libraryUsage_used loaded = 0%nat /\
  localStorage loaded !! key = Some savedData /\
  library (addToLibrary STORAGE_LIMIT_BYTES t JSON_stringify byteLength Number_toString
                        d now_id now_ts loaded) = [item] /\
  localStorage (addToLibrary STORAGE_LIMIT_BYTES t JSON_stringify byteLength Number_toString
                             d now_id now_ts loaded) !! key
  = Some (JSON_stringify [item]).
Proof.
  intros item loaded Hk Hs Hne Hparse Hfit. subst item loaded.
  unfold loadLibrary. rewrite Hk, Hs, (truthy_nonempty _ Hne), Hparse.
  cbn [library libraryUsage_used localStorage].
  do 3 (split; [first [reflexivity|exact Hs]|]).
  unfold addToLibrary, getLibraryStorageKey in *. cbn [userRole library]. rewrite Hk.
  cbv zeta. apply Nat.ltb_ge in Hfit. rewrite Hfit. cbn [library localStorage].
  split; [reflexivity|apply lookup_insert_eq].
Qed.

Lemma unparsable_library_is_replaced_witness :
  library (loadLibrary (fun _ => None) String.length
             (mkApp (Some TEACHER) [] 0 {["triVietLibrary_teacher" := "{oops"]} []))
  = [] /\
  localStorage
    (addToLibrary 1000 (fun k => k) (fun _ => "[]"%string) String.length (fun _ => "0"%string)
       (mkItemData "a" EXAM (ContentString "b")) 0 0
       (loadLibrary (fun _ => None) String.length
          (mkApp (Some TEACHER) [] 0 {["triVietLibrary_teacher" := "{oops"]} [])))
    !! "triVietLibrary_teacher"
  = Some "[]"%string.
Proof.
  destruct (unparsable_library_is_replaced 1000 (fun k => k) (fun _ => "[]"%string)
              (fun _ => None) String.length (fun _ => "0"%string)
              (mkItemData "a" EXAM (ContentString "b")) 0 0
              "triVietLibrary_teacher" "{oops"
              (mkApp (Some TEACHER) [] 0 {["triVietLibrary_teacher" := "{oops"]} [])
              eq_refl (lookup_singleton_eq _ _) ltac:(discriminate) eq_refl
              ltac:(cbn; lia))
    as (E1 & _ & _ & _ & E2).
  split; [exact E1|exact E2].
Defined.
